(** * tealviz: basic-block extraction for TEAL programs

    A shallow embedding of [extractBlocks] and of the three line
    classifiers it relies on, followed by the properties of the block
    builder and of the graph assembler.  The repository holds two copies
    of these functions (src/main.ts and the standard-input variant); they
    differ only in how the loop over the input is written and in a
    diagnostic print on terminators, neither of which changes the result.

    Modelling conventions.
    - A JavaScript string is a [string]: a sequence of 8-bit code units.
      Within that alphabet the only characters the regular-expression
      atom [.] refuses are line feed (10) and carriage return (13).
    - [labels], the object used as a dictionary from label names to
      constructing blocks, is a [gmap string nat].  The value stored for
      a name is the address of the constructing block: every constructing
      block is pushed onto [blocks] exactly once and in creation order, so
      the address of [curBlock] is [length blocks].  The objects that the
      dictionary refers to keep being mutated after registration (body,
      flow, branch, realBlock); through the address the lookup sees the
      final object, as the source does.  The link step only ever reads
      [labels[name]?.realBlock]: a name the stream does not declare yields
      [undefined] there also when the object inherits a property of that
      name (no inherited value has a [realBlock] field), and the name
      [__proto__] is stored and read back like any other.
    - A reference to a finished [Block] is its index in the returned
      array [constructedBlocks]; each finished block is a fresh object,
      so references and indices correspond one to one.
    - [throw new Error(...)] is the [Throw] result. *)

From Stdlib Require Import ZArith Lia Ascii.
From stdpp Require Import base option list strings gmap pretty.

Open Scope string_scope.
Open Scope list_scope.

(** ** The JavaScript string primitives the source calls *)

Module JS.

(** [s.indexOf(c)]: position of the first occurrence, [-1] when absent. *)
Fixpoint indexOf (c : ascii) (s : string) : Z :=
  match s with
  | EmptyString => (-1)%Z
  | String a r =>
      if Ascii.eqb a c then 0%Z
      else let i := indexOf c r in
           if (i <? 0)%Z then (-1)%Z else (i + 1)%Z
  end.

(** [s.split(sep)[0]]: the text before the first separator (all of [s]
    when there is none). *)
Fixpoint split_head (sep : ascii) (s : string) : string :=
  match s with
  | EmptyString => EmptyString
  | String a r => if Ascii.eqb a sep then EmptyString else String a (split_head sep r)
  end.

(** [s.slice(b, e)], negative positions counting from the end. *)
Definition slice (s : string) (b e : Z) : string :=
  let len := Z.of_nat (String.length s) in
  let from := if (b <? 0)%Z then Z.max (len + b) 0 else Z.min b len in
  let to := if (e <? 0)%Z then Z.max (len + e) 0 else Z.min e len in
  String.substring (Z.to_nat from) (Z.to_nat (Z.max (to - from) 0)) s.

(** [s.startsWith(p)], which is also what a regular expression [^p] made
    of literal characters tests. *)
Fixpoint startsWith (p s : string) : bool :=
  match p, s with
  | EmptyString, _ => true
  | String a p', String b s' => Ascii.eqb a b && startsWith p' s'
  | String _ _, EmptyString => false
  end.

(** Removal of the first [n] code units. *)
Fixpoint drop (n : nat) (s : string) : string :=
  match n, s with
  | O, _ => s
  | S n', String _ r => drop n' r
  | S _, EmptyString => EmptyString
  end.

Definition isLineTerminator (a : ascii) : bool :=
  Ascii.eqb a "010"%char || Ascii.eqb a "013"%char.

(** What the greedy second capture group of the branch pattern (any
    number of [.]) takes at the start of [s]: the longest prefix free of
    line terminators. *)
Fixpoint dotStar (s : string) : string :=
  match s with
  | EmptyString => EmptyString
  | String a r => if isLineTerminator a then EmptyString else String a (dotStar r)
  end.

(** Truthiness of a string: only the empty string is falsy. *)
Definition truthy (s : string) : bool :=
  match s with EmptyString => false | String _ _ => true end.

(** Whether some code unit of [s] satisfies [p]. *)
Fixpoint anyChar (p : ascii → bool) (s : string) : bool :=
  match s with
  | EmptyString => false
  | String a r => p a || anyChar p r
  end.

(** [l.join(sep)] *)
Fixpoint join (sep : string) (l : list string) : string :=
  match l with
  | [] => EmptyString
  | [x] => x
  | x :: tl => x +:+ sep +:+ join sep tl
  end.

(** [s.replace(/c/g, c')] for a single character [c]. *)
Fixpoint replaceAll (c c' : ascii) (s : string) : string :=
  match s with
  | EmptyString => EmptyString
  | String a r => String (if Ascii.eqb a c then c' else a) (replaceAll c c' r)
  end.

(** [l.findIndex(p)]: index of the first element satisfying [p], [-1] when
    there is none. *)
Fixpoint findIndex {A : Type} (p : A → bool) (l : list A) : Z :=
  match l with
  | [] => (-1)%Z
  | x :: tl =>
      if p x then 0%Z
      else let i := findIndex p tl in
           if (i <? 0)%Z then (-1)%Z else (i + 1)%Z
  end.

(** The double quote, the line feed, and the two-character sequence
    backslash, [n] that the renderer writes between body lines. *)
Definition dquote : ascii := "034"%char.
Definition newline : string := String "010"%char EmptyString.
Definition backslash_n : string := String "092"%char (String "n"%char EmptyString).

End JS.

(** ** Instruction classifier *)

(** [line.match(/^(err|return)/)], read as a truth value. *)
Definition isTerminator (line : string) : bool :=
  JS.startsWith "err" line || JS.startsWith "return" line.

(** [null] is [None]. *)
Definition getLabelMaybe (line : string) : option string :=
  let colonIdx := JS.indexOf ":"%char (JS.split_head " "%char line) in
  if (colonIdx <? 0)%Z then None
  else Some (JS.slice line 0 colonIdx).

(** The branch pattern: at the start of the line one of [bnz], [bz], [b]
    (first capture), a space, then any run of [.] (second capture).  The
    alternatives are tried in the order written and each must be followed
    by a space, so at most one of them can succeed; the pair returned is
    [(match[1], match[2])]. *)
Definition getBranchMaybe (line : string) : option (string * string) :=
  if JS.startsWith "bnz " line then Some ("bnz", JS.dotStar (JS.drop 4 line))
  else if JS.startsWith "bz " line then Some ("bz", JS.dotStar (JS.drop 3 line))
  else if JS.startsWith "b " line then Some ("b", JS.dotStar (JS.drop 2 line))
  else None.

(** The three tests as the builder applies them: [if (label)],
    [if (branch)], [if (isTerminator(line))]. *)
Definition isLabel (line : string) : bool :=
  match getLabelMaybe line with
  | Some label => JS.truthy label
  | None => false
  end.

Definition isBranch (line : string) : bool :=
  match getBranchMaybe line with
  | Some _ => true
  | None => false
  end.

(** ** Blocks *)

Module ConstructingBlock.

(** The local type [ConstructingBlock].  [label] is absent or the declared
    name; [flow] is [true] or [undefined], read as a truth value; the
    field [realBlock] is kept apart, see [realBlock] below. *)
Record t : Type := mk {
  body : list string;
  label : option string;
  flow : bool;
  branch : option string;
  dead : bool
}.

Definition push_body (line : string) (b : t) : t :=
  mk (body b ++ [line]) (label b) (flow b) (branch b) (dead b).

Definition set_flow (f : bool) (b : t) : t :=
  mk (body b) (label b) f (branch b) (dead b).

Definition set_branch (target : string) (b : t) : t :=
  mk (body b) (label b) (flow b) (Some target) (dead b).

(** [block.body.length] read as a truth value. *)
Definition nonEmpty (b : t) : Prop := body b <> [].

#[global] Instance nonEmpty_dec b : Decision (nonEmpty b).
Proof. unfold nonEmpty. apply _. Defined.

End ConstructingBlock.

Module Block.

(** The class [Block]; the two successor fields hold references to
    finished blocks, that is, indices into the returned array. *)
Record t : Type := mk {
  contents : list string;
  label : string;
  dead : bool;
  flow : option nat;
  branch : option nat
}.

Definition set_flow (f : option nat) (b : t) : t :=
  mk (contents b) (label b) (dead b) f (branch b).

Definition set_branch (r : option nat) (b : t) : t :=
  mk (contents b) (label b) (dead b) (flow b) r.

End Block.

(** ** Block builder *)

(** The three variables the loop over the input updates. *)
Record Builder : Type := mkBuilder {
  blocks : list ConstructingBlock.t;
  labels : gmap string nat;
  curBlock : ConstructingBlock.t
}.

(** [{body: [], dead}] *)
Definition freshBlock (dead : bool) : ConstructingBlock.t :=
  ConstructingBlock.mk [] None false None dead.

Definition initBuilder : Builder :=
  mkBuilder [] ∅ (freshBlock false).

(** One iteration of [for (const line of input)].  The three [continue]
    statements are the three branches that close a block; a line that is
    none of label, branch and terminator only grows the current body. *)
Definition step (st : Builder) (line : string) : Builder :=
  let unlabelled :=
    let curBlock1 := ConstructingBlock.push_body line (curBlock st) in
    match getBranchMaybe line with
    | Some (mnemonic, target) =>
        let flow := negb (String.eqb mnemonic "b") in
        let closed :=
          ConstructingBlock.set_branch target
            (ConstructingBlock.set_flow flow curBlock1) in
        mkBuilder (blocks st ++ [closed]) (labels st) (freshBlock flow)
    | None =>
        if isTerminator line then
          mkBuilder (blocks st ++ [curBlock1]) (labels st) (freshBlock true)
        else mkBuilder (blocks st) (labels st) curBlock1
    end in
  match getLabelMaybe line with
  | Some label =>
      if JS.truthy label then
        let blocks' :=
          blocks st ++ [ConstructingBlock.set_flow true (curBlock st)] in
        let curBlock' :=
          ConstructingBlock.mk [line] (Some label) false None false in
        mkBuilder blocks' (<[label := length blocks']> (labels st)) curBlock'
      else unlabelled
  | None => unlabelled
  end.

Definition build (input : list string) : Builder :=
  foldl step initBuilder input.

(** Every constructing block ever created, in creation order: the array
    [blocks] after the final [blocks.push(curBlock)]. *)
Definition allBlocks (st : Builder) : list ConstructingBlock.t :=
  blocks st ++ [curBlock st].

(** ** Graph assembler *)

Inductive Result (A : Type) : Type :=
| Return (a : A)
| Throw (message : string).
Arguments Return {A} a.
Arguments Throw {A} message.

(** [blocks.filter(block => block.body.length)] *)
Definition survivors (all : list ConstructingBlock.t) : list ConstructingBlock.t :=
  filter ConstructingBlock.nonEmpty all.

(** The field [realBlock] of the constructing block at address [a], once
    the [map] over the surviving blocks has run: the block is given a
    finished block only if it survived the filter, and then it is the one
    whose index is the number of survivors created before it. *)
Definition realBlock (all : list ConstructingBlock.t) (a : nat) : option nat :=
  match all !! a with
  | Some b =>
      if decide (ConstructingBlock.nonEmpty b)
      then Some (length (survivors (take a all)))
      else None
  | None => None
  end.

(** The template literal [b] followed by [idx] *)
Definition synthesized (idx : nat) : string := "b" +:+ pretty idx.

(** [new Block(block.body, block.label || synthesized, block.dead)] *)
Definition newBlock (idx : nat) (block : ConstructingBlock.t) : Block.t :=
  let label :=
    match ConstructingBlock.label block with
    | Some l => if JS.truthy l then l else synthesized idx
    | None => synthesized idx
    end in
  Block.mk (ConstructingBlock.body block) label (ConstructingBlock.dead block)
           None None.

Definition notFound (target : string) : string :=
  "branch target not found: '" +:+ target +:+ "'".

(** The body of the linking loop at index [i], acting on the array
    [constructedBlocks].  [constructedBlocks[i]] is the reference [i] when
    that index is in range. *)
Definition link (blocks : list ConstructingBlock.t) (labels : gmap string nat)
    (all : list ConstructingBlock.t) (i : nat)
    (constructedBlocks : list Block.t) : Result (list Block.t) :=
  match blocks !! (i - 1) with
  | None => Return constructedBlocks
  | Some block =>
      let constructedBlocks1 :=
        if ConstructingBlock.flow block then
          alter (Block.set_flow ((λ _, i) <$> constructedBlocks !! i)) (i - 1)
                constructedBlocks
        else constructedBlocks in
      match ConstructingBlock.branch block with
      | Some target =>
          if JS.truthy target then
            let dest := labels !! target ≫= realBlock all in
            match dest with
            | Some _ =>
                Return (alter (Block.set_branch dest) (i - 1) constructedBlocks1)
            | None => Throw (notFound target)
            end
          else Return constructedBlocks1
      | None => Return constructedBlocks1
      end
  end.

(** [for (let i = start; ...; i++) body], run for [count] iterations and
    left at the first [throw]. *)
Fixpoint forLoop {S : Type} (body : nat → S → Result S) (start count : nat)
    (s : S) : Result S :=
  match count with
  | O => Return s
  | Datatypes.S count' =>
      match body start s with
      | Return s' => forLoop body (Datatypes.S start) count' s'
      | Throw message => Throw message
      end
  end.

Definition extractBlocks (input : list string) : Result (list Block.t) :=
  let st := build input in
  let all := allBlocks st in
  let blocks := survivors all in
  let constructedBlocks := imap newBlock blocks in
  forLoop (link blocks (labels st) all) 1 (length blocks - 1) constructedBlocks.

(** ** Vocabulary of the statements *)

(** The name a line declares, when the builder takes its label branch:
    [getLabelMaybe] answers and the answer is truthy. *)
Definition declaredName (line : string) : option string :=
  match getLabelMaybe line with
  | Some label => if JS.truthy label then Some label else None
  | None => None
  end.

(** The label names declared in a stream, in order, with repetitions. *)
Definition declared (input : list string) : list string :=
  omap declaredName input.

(** What later iterations may do to a constructing block that already
    exists: append lines to its body, and nothing else to the fields that
    identify it. *)
Definition grows (b b' : ConstructingBlock.t) : Prop :=
  ConstructingBlock.label b' = ConstructingBlock.label b ∧
  ConstructingBlock.dead b' = ConstructingBlock.dead b ∧
  ∃ more, ConstructingBlock.body b' = ConstructingBlock.body b ++ more.

(** The current block has not been given its exits yet. *)
Definition openBlock (b : ConstructingBlock.t) : Prop :=
  ConstructingBlock.flow b = false ∧ ConstructingBlock.branch b = None.

(** The target on which the linking iteration for [block] throws. *)
Definition unresolved (labels : gmap string nat)
    (all : list ConstructingBlock.t) (block : ConstructingBlock.t) : option string :=
  match ConstructingBlock.branch block with
  | Some target =>
      if JS.truthy target then
        match labels !! target ≫= realBlock all with
        | Some _ => None
        | None => Some target
        end
      else None
  | None => None
  end.

(** The finished block that the linking iteration for the surviving
    block [block] at index [j] leaves in the array of [n] blocks. *)
Definition linked (labels : gmap string nat) (all : list ConstructingBlock.t)
    (n j : nat) (block : ConstructingBlock.t) : Block.t :=
  let b1 :=
    if ConstructingBlock.flow block then
      Block.set_flow (if decide (S j < n) then Some (S j) else None)
                     (newBlock j block)
    else newBlock j block in
  match ConstructingBlock.branch block with
  | Some target =>
      if JS.truthy target then
        Block.set_branch (labels !! target ≫= realBlock all) b1
      else b1
  | None => b1
  end.

(** The loop visits every surviving block but the last. *)
Definition finished (labels : gmap string nat) (all : list ConstructingBlock.t)
    (n j : nat) (block : ConstructingBlock.t) : Block.t :=
  if decide (S j < n) then linked labels all n j block else newBlock j block.

(** [b] opens with the declaration of [name]: it carries that label and
    its first body line is a label line declaring it. *)
Definition opensWith (name : string) (b : ConstructingBlock.t) : Prop :=
  ConstructingBlock.label b = Some name ∧
  ∃ line rest, ConstructingBlock.body b = line :: rest ∧
               declaredName line = Some name.

(** What holds of every constructing block at every moment. *)
Definition blockOK (b : ConstructingBlock.t) : Prop :=
  (∀ name, ConstructingBlock.label b = Some name →
           JS.truthy name = true ∧ opensWith name b) ∧
  (is_Some (ConstructingBlock.branch b) → ConstructingBlock.nonEmpty b).

(** Every entry of the label table is the address of a block that opens
    with the declaration of that name. *)
Definition labelsOK (st : Builder) : Prop :=
  ∀ name a, labels st !! name = Some a →
            ∃ b, allBlocks st !! a = Some b ∧ opensWith name b.

(** The array [constructedBlocks] after the linking iterations for the
    first [k] surviving blocks. *)
Definition linkedUpTo (blocks : list ConstructingBlock.t)
    (labels : gmap string nat) (all : list ConstructingBlock.t)
    (k : nat) (constructedBlocks : list Block.t) : Prop :=
  length constructedBlocks = length blocks ∧
  ∀ j block, blocks !! j = Some block →
    constructedBlocks !! j =
      Some (if decide (j < k) then linked labels all (length blocks) j block
            else newBlock j block).

(** The label [new Block] gives to surviving block [idx]. *)
Definition finishedLabel (idx : nat) (block : ConstructingBlock.t) : string :=
  default (synthesized idx) (ConstructingBlock.label block).

(** ** Vocabulary of the structural properties *)

(** A line on which the builder only grows the current body. *)
Definition plain (line : string) : Prop :=
  isLabel line = false ∧ isBranch line = false ∧ isTerminator line = false.

(** The body of a block on which no closing line has been seen yet: the
    label line when the block was opened by one, then plain lines. *)
Definition openBody (lab : option string) (body : list string) : Prop :=
  match lab with
  | Some name =>
      ∃ line rest, body = line :: rest ∧ declaredName line = Some name ∧
                   Forall plain rest
  | None => Forall plain body
  end.

(** The shape of a block once it has been pushed, read off its two exit
    fields: closed by a branch line, by the label line that follows it, or
    by a terminator line. *)
Definition closedShape (b : ConstructingBlock.t) : Prop :=
  match ConstructingBlock.branch b with
  | Some target =>
      ∃ front line mnemonic,
        ConstructingBlock.body b = front ++ [line] ∧
        openBody (ConstructingBlock.label b) front ∧
        isLabel line = false ∧
        getBranchMaybe line = Some (mnemonic, target) ∧
        ConstructingBlock.flow b = negb (String.eqb mnemonic "b")
  | None =>
      if ConstructingBlock.flow b then
        openBody (ConstructingBlock.label b) (ConstructingBlock.body b)
      else
        ∃ front line,
          ConstructingBlock.body b = front ++ [line] ∧
          openBody (ConstructingBlock.label b) front ∧
          isLabel line = false ∧ isBranch line = false ∧
          isTerminator line = true
  end.

(** How the block created right after [b] starts, given how [b] was
    closed. *)
Definition follows (b b' : ConstructingBlock.t) : Prop :=
  match ConstructingBlock.branch b with
  | Some _ =>
      ConstructingBlock.label b' = None ∧
      ConstructingBlock.dead b' = ConstructingBlock.flow b
  | None =>
      if ConstructingBlock.flow b then
        is_Some (ConstructingBlock.label b') ∧ ConstructingBlock.dead b' = false
      else
        ConstructingBlock.label b' = None ∧ ConstructingBlock.dead b' = true
  end.

Fixpoint chained (l : list ConstructingBlock.t) : Prop :=
  match l with
  | [] => True
  | b :: tl =>
      match tl with
      | [] => True
      | b' :: _ => follows b b'
      end ∧ chained tl
  end.

(** The structure the builder maintains. *)
Definition structured (st : Builder) : Prop :=
  Forall closedShape (blocks st) ∧
  openBody (ConstructingBlock.label (curBlock st))
           (ConstructingBlock.body (curBlock st)) ∧
  openBlock (curBlock st) ∧
  chained (allBlocks st) ∧
  ∃ entry, allBlocks st !! 0%nat = Some entry ∧
           ConstructingBlock.label entry = None ∧
           ConstructingBlock.dead entry = false.

(** ** The remaining functions of the source *)

(** [getLabelFor] (src/main.ts): the index of the first line that starts
    with [label]. *)
Definition getLabelFor (input : list string) (label : string) : Result Z :=
  let idx := JS.findIndex (λ line, JS.startsWith label line) input in
  if (idx =? -1)%Z then Throw ("label not found: '" +:+ label +:+ "'")
  else Return idx.

(** The text of a node of the rendering. *)
Definition vizNode (block : Block.t) : string :=
  Block.label block +:+ " [shape=box label=" +:+ String JS.dquote "<" +:+
  Block.label block +:+ ">" +:+ JS.backslash_n +:+
  JS.replaceAll JS.dquote "'"%char
    (JS.join JS.backslash_n (Block.contents block)) +:+
  String JS.dquote "]".

(** The relation pushed for a successor field of [block].  The field holds
    a reference into [blocks]; an index outside the list stands for no
    object of the source and yields nothing. *)
Definition vizRelation (blocks : list Block.t) (block : Block.t)
    (successor : option nat) : list string :=
  match successor with
  | Some j =>
      match blocks !! j with
      | Some succ => [Block.label block +:+ " -> " +:+ Block.label succ]
      | None => []
      end
  | None => []
  end.

(** The loop of [vizBlocks]: the two arrays [nodes] and [relations] after
    all blocks have been visited. *)
Definition vizLines (blocks : list Block.t) : list string * list string :=
  foldl (λ '(nodes, relations) block,
           (nodes ++ [vizNode block],
            (relations ++ vizRelation blocks block (Block.flow block))
              ++ vizRelation blocks block (Block.branch block)))
        ([], []) blocks.

Definition vizBlocks (blocks : list Block.t) : string :=
  let '(nodes, relations) := vizLines blocks in
  "digraph program {" +:+ JS.newline +:+ JS.join JS.newline nodes +:+
  JS.newline +:+ JS.newline +:+ JS.join JS.newline relations +:+
  JS.newline +:+ JS.newline +:+ "}".

(** What the program prints for a stream: the rendering of the graph, or
    nothing when [extractBlocks] throws. *)
Definition render (lines : list string) : Result string :=
  match extractBlocks lines with
  | Return blocks => Return (vizBlocks blocks)
  | Throw message => Throw message
  end.

(** ** The scenarios of the specification, run on the model *)

Example scenario_A :
  extractBlocks ["return"] = Return [Block.mk ["return"] "b0" false None None].
Proof. vm_compute. reflexivity. Qed.

Example scenario_B :
  extractBlocks ["b l0"; "l0:"; "return"] =
  Return [Block.mk ["b l0"] "b0" false None (Some 1%nat);
          Block.mk ["l0:"; "return"] "l0" false None None].
Proof. vm_compute. reflexivity. Qed.

Example scenario_C :
  extractBlocks ["bnz l1"; "int 1"; "l1:"; "err"] =
  Return [Block.mk ["bnz l1"] "b0" false (Some 1%nat) (Some 2%nat);
          Block.mk ["int 1"] "b1" true (Some 2%nat) None;
          Block.mk ["l1:"; "err"] "l1" false None None].
Proof. vm_compute. reflexivity. Qed.

Example scenario_D :
  extractBlocks ["b missing"; "return"] =
  Throw "branch target not found: 'missing'".
Proof. vm_compute. reflexivity. Qed.

Example scenario_E :
  extractBlocks ["b l0"; "int 9"; "l0:"; "err"] =
  Return [Block.mk ["b l0"] "b0" false None (Some 2%nat);
          Block.mk ["int 9"] "b1" false (Some 2%nat) None;
          Block.mk ["l0:"; "err"] "l0" false None None].
Proof. vm_compute. reflexivity. Qed.

(** ** The classifiers on sample lines *)

Example getLabelMaybe_l0 : getLabelMaybe "l0:" = Some "l0".
Proof. reflexivity. Qed.
Example getLabelMaybe_colon : getLabelMaybe ": x" = Some "".
Proof. reflexivity. Qed.
Example getLabelMaybe_late_colon : getLabelMaybe "byte VOTE:" = None.
Proof. reflexivity. Qed.
Example getBranchMaybe_bnz : getBranchMaybe "bnz l1" = Some ("bnz", "l1").
Proof. reflexivity. Qed.
Example getBranchMaybe_btoi : getBranchMaybe "btoi" = None.
Proof. reflexivity. Qed.

(** ** Facts about the string primitives *)

Lemma startsWith_inv p s :
  JS.startsWith p s = true → ∃ rest, s = p +:+ rest.
Proof.
  revert s. induction p as [|a p IH]; intros s H.
  - exists s. reflexivity.
  - destruct s as [|b s]; [discriminate|].
    simpl in H. apply andb_true_iff in H as [Hab Hps].
    apply Ascii.eqb_eq in Hab as ->.
    destruct (IH _ Hps) as [rest ->]. exists rest. reflexivity.
Qed.

Lemma startsWith_app p rest : JS.startsWith p (p +:+ rest) = true.
Proof.
  induction p as [|a p IH]; simpl; [reflexivity|].
  rewrite Ascii.eqb_refl. exact IH.
Qed.

Lemma getBranchMaybe_inv line mnemonic target :
  getBranchMaybe line = Some (mnemonic, target) →
  ∃ rest, line = mnemonic +:+ " " +:+ rest ∧ target = JS.dotStar rest ∧
          (mnemonic = "bnz" ∨ mnemonic = "bz" ∨ mnemonic = "b").
Proof.
  unfold getBranchMaybe. intros H.
  destruct (JS.startsWith "bnz " line) eqn:H1.
  { apply startsWith_inv in H1 as [rest ->]. inversion H; subst.
    exists rest. auto. }
  destruct (JS.startsWith "bz " line) eqn:H2.
  { apply startsWith_inv in H2 as [rest ->]. inversion H; subst.
    exists rest. auto. }
  destruct (JS.startsWith "b " line) eqn:H3; [|discriminate].
  apply startsWith_inv in H3 as [rest ->]. inversion H; subst.
  exists rest. auto.
Qed.

Lemma isBranch_not_isLabel line : isBranch line = true → isLabel line = false.
Proof.
  unfold isBranch. destruct (getBranchMaybe line) as [[m t]|] eqn:H; [|discriminate].
  intros _. apply getBranchMaybe_inv in H as (rest & -> & _ & [-> | [-> | ->]]);
    reflexivity.
Qed.

Lemma isBranch_not_isTerminator line :
  isBranch line = true → isTerminator line = false.
Proof.
  unfold isBranch. destruct (getBranchMaybe line) as [[m t]|] eqn:H; [|discriminate].
  intros _. apply getBranchMaybe_inv in H as (rest & -> & _ & [-> | [-> | ->]]);
    reflexivity.
Qed.

(** ** The block builder, one line at a time *)

Lemma build_snoc pre line : build (pre ++ [line]) = step (build pre) line.
Proof. unfold build. rewrite foldl_app. reflexivity. Qed.

Lemma build_app pre post : build (pre ++ post) = foldl step (build pre) post.
Proof. unfold build. apply foldl_app. Qed.

Lemma declaredName_isLabel line name :
  declaredName line = Some name ↔
  getLabelMaybe line = Some name ∧ JS.truthy name = true.
Proof.
  unfold declaredName. destruct (getLabelMaybe line) as [l|].
  - destruct (JS.truthy l) eqn:E; split.
    + intros [= ->]. done.
    + intros [[= ->] _]. done.
    + done.
    + intros [[= ->] H]. congruence.
  - split; [done|]. intros [? _]. done.
Qed.

Lemma isLabel_declaredName line :
  isLabel line = false ↔ declaredName line = None.
Proof.
  unfold isLabel, declaredName. destruct (getLabelMaybe line) as [l|]; [|done].
  destruct (JS.truthy l); done.
Qed.

(** The four ways an iteration can go. *)
Lemma step_label st line name :
  declaredName line = Some name →
  step st line =
  mkBuilder (blocks st ++ [ConstructingBlock.set_flow true (curBlock st)])
            (<[name := S (length (blocks st))]> (labels st))
            (ConstructingBlock.mk [line] (Some name) false None false).
Proof.
  intros [H1 H2]%declaredName_isLabel. unfold step. rewrite H1, H2.
  rewrite length_app. simpl. rewrite Nat.add_1_r. reflexivity.
Qed.

Lemma step_branch st line mnemonic target :
  declaredName line = None →
  getBranchMaybe line = Some (mnemonic, target) →
  step st line =
  mkBuilder
    (blocks st ++
     [ConstructingBlock.set_branch target
        (ConstructingBlock.set_flow (negb (String.eqb mnemonic "b"))
           (ConstructingBlock.push_body line (curBlock st)))])
    (labels st)
    (freshBlock (negb (String.eqb mnemonic "b"))).
Proof.
  unfold declaredName, step. intros H1 H2. rewrite H2.
  destruct (getLabelMaybe line) as [l|]; [|reflexivity].
  destruct (JS.truthy l); [discriminate|reflexivity].
Qed.

Lemma step_terminator st line :
  declaredName line = None → getBranchMaybe line = None →
  isTerminator line = true →
  step st line =
  mkBuilder (blocks st ++ [ConstructingBlock.push_body line (curBlock st)])
            (labels st) (freshBlock true).
Proof.
  unfold declaredName, step. intros H1 H2 H3. rewrite H2, H3.
  destruct (getLabelMaybe line) as [l|]; [|reflexivity].
  destruct (JS.truthy l); [discriminate|reflexivity].
Qed.

Lemma step_ordinary st line :
  declaredName line = None → getBranchMaybe line = None →
  isTerminator line = false →
  step st line =
  mkBuilder (blocks st) (labels st)
            (ConstructingBlock.push_body line (curBlock st)).
Proof.
  unfold declaredName, step. intros H1 H2 H3. rewrite H2, H3.
  destruct (getLabelMaybe line) as [l|]; [|reflexivity].
  destruct (JS.truthy l); [discriminate|reflexivity].
Qed.

(** Case analysis on an iteration, rewriting [step st line] everywhere. *)
Ltac step_cases st line :=
  let name := fresh "name" in
  let m := fresh "mnemonic" in
  let t := fresh "target" in
  let Hl := fresh "Hlabel" in
  let Hb := fresh "Hbranch" in
  let Ht := fresh "Hterm" in
  destruct (declaredName line) as [name|] eqn:Hl;
  [ rewrite (step_label st line name Hl) in *
  | destruct (getBranchMaybe line) as [[m t]|] eqn:Hb;
    [ rewrite (step_branch st line m t Hl Hb) in *
    | destruct (isTerminator line) eqn:Ht;
      [ rewrite (step_terminator st line Hl Hb Ht) in *
      | rewrite (step_ordinary st line Hl Hb Ht) in * ] ] ].

Lemma step_openBlock st line :
  openBlock (curBlock st) → openBlock (curBlock (step st line)).
Proof. intros [H1 H2]. step_cases st line; simpl; split; done. Qed.

Lemma foldl_step_invariant (P : Builder → Prop) st input :
  (∀ st line, P st → P (step st line)) → P st → P (foldl step st input).
Proof.
  intros Hstep. revert st. induction input as [|line input IH]; intros st H; simpl.
  - exact H.
  - apply IH, Hstep, H.
Qed.

Lemma build_openBlock input : openBlock (curBlock (build input)).
Proof.
  apply (foldl_step_invariant (λ st, openBlock (curBlock st))).
  - intros st line. apply step_openBlock.
  - split; reflexivity.
Qed.

(** *** Blocks only grow *)

Lemma grows_refl b : grows b b.
Proof. repeat split. exists []. by rewrite app_nil_r. Qed.

Lemma grows_trans b1 b2 b3 : grows b1 b2 → grows b2 b3 → grows b1 b3.
Proof.
  intros (Hl1 & Hd1 & m1 & Hb1) (Hl2 & Hd2 & m2 & Hb2). repeat split.
  - congruence.
  - congruence.
  - exists (m1 ++ m2). rewrite Hb2, Hb1, app_assoc. reflexivity.
Qed.

Lemma grows_push line b : grows b (ConstructingBlock.push_body line b).
Proof. repeat split. exists [line]. reflexivity. Qed.

Lemma grows_set_flow f b : grows b (ConstructingBlock.set_flow f b).
Proof. repeat split. exists []. simpl. by rewrite app_nil_r. Qed.

Lemma grows_set_branch t b : grows b (ConstructingBlock.set_branch t b).
Proof. repeat split. exists []. simpl. by rewrite app_nil_r. Qed.

(** An iteration leaves the closed blocks alone, lets the current block
    grow, and creates at most one block after it. *)
Lemma step_allBlocks st line :
  ∃ cur' extra,
    allBlocks (step st line) = blocks st ++ cur' :: extra ∧
    grows (curBlock st) cur' ∧
    (extra = [] ∨ ∃ new, extra = [new] ∧ ConstructingBlock.branch new = None).
Proof.
  unfold allBlocks. step_cases st line; simpl; rewrite <- ?app_assoc; simpl.
  - eexists _, _. split; [reflexivity|]. split; [apply grows_set_flow|].
    right. eexists. split; reflexivity.
  - eexists _, _. split; [reflexivity|]. split.
    + eapply grows_trans; [apply grows_push|].
      eapply grows_trans; [apply grows_set_flow|apply grows_set_branch].
    + right. eexists. split; reflexivity.
  - eexists _, _. split; [reflexivity|]. split; [apply grows_push|].
    right. eexists. split; reflexivity.
  - eexists _, _. split; [reflexivity|]. split; [apply grows_push|].
    left. reflexivity.
Qed.

Lemma step_blocks_prefix st line : blocks st `prefix_of` blocks (step st line).
Proof.
  step_cases st line; simpl; try (apply prefix_app_r; reflexivity).
  reflexivity.
Qed.

Lemma step_grows st line a cb :
  allBlocks st !! a = Some cb →
  ∃ cb', allBlocks (step st line) !! a = Some cb' ∧ grows cb cb'.
Proof.
  intros Ha. destruct (step_allBlocks st line) as (cur' & extra & -> & Hg & _).
  unfold allBlocks in Ha.
  destruct (decide (a < length (blocks st))) as [Hlt|Hge].
  - rewrite lookup_app_l in * by done. exists cb. split; [done|apply grows_refl].
  - rewrite lookup_app_r in * by lia.
    destruct (a - length (blocks st)) as [|k] eqn:E; simpl in *; [|done].
    injection Ha as <-. exists cur'. done.
Qed.

Lemma foldl_step_grows st post a cb :
  allBlocks st !! a = Some cb →
  ∃ cb', allBlocks (foldl step st post) !! a = Some cb' ∧ grows cb cb'.
Proof.
  revert st cb. induction post as [|line post IH]; intros st cb Ha; simpl.
  - exists cb. split; [done|apply grows_refl].
  - destruct (step_grows st line a cb Ha) as (cb1 & H1 & Hg1).
    destruct (IH _ _ H1) as (cb2 & H2 & Hg2).
    exists cb2. split; [done|]. eapply grows_trans; eassumption.
Qed.

Lemma foldl_step_blocks_prefix st post :
  blocks st `prefix_of` blocks (foldl step st post).
Proof.
  revert st. induction post as [|line post IH]; intros st; simpl.
  - reflexivity.
  - etrans; [apply step_blocks_prefix|apply IH].
Qed.

(** A closed block is never touched again. *)
Lemma closed_block_final st post a cb :
  blocks st !! a = Some cb → allBlocks (foldl step st post) !! a = Some cb.
Proof.
  intros Ha. destruct (foldl_step_blocks_prefix st post) as [more Hmore].
  unfold allBlocks. rewrite Hmore, <- app_assoc.
  apply lookup_app_l_Some. exact Ha.
Qed.

(** *** The label table *)

Lemma opensWith_grows name b b' : grows b b' → opensWith name b → opensWith name b'.
Proof.
  intros (Hl & _ & more & Hb) (Hn & line & rest & Hbody & Hd).
  split; [congruence|]. exists line, (rest ++ more).
  rewrite Hb, Hbody. done.
Qed.

Lemma opensWith_nonEmpty name b : opensWith name b → ConstructingBlock.nonEmpty b.
Proof. intros (_ & line & rest & Hb & _). unfold ConstructingBlock.nonEmpty. by rewrite Hb. Qed.

Lemma step_labels st line name a :
  labels (step st line) !! name = Some a →
  labels st !! name = Some a ∨
  (declaredName line = Some name ∧
   allBlocks (step st line) !! a =
     Some (ConstructingBlock.mk [line] (Some name) false None false)).
Proof.
  step_cases st line; simpl; auto.
  destruct (decide (name0 = name)) as [->|Hne].
  - rewrite lookup_insert_eq. intros [= <-]. right. split; [done|].
    unfold allBlocks. simpl.
    rewrite lookup_app_r by (rewrite length_app; simpl; lia).
    rewrite length_app. simpl.
    replace (S (length (blocks st)) - (length (blocks st) + 1)) with 0 by lia.
    reflexivity.
  - rewrite lookup_insert_ne by done. auto.
Qed.

Lemma step_labelsOK st line : labelsOK st → labelsOK (step st line).
Proof.
  intros Hok name a Ha. destruct (step_labels st line name a Ha) as [Hold|[Hd Hnew]].
  - destruct (Hok name a Hold) as (b & Hb & Hopen).
    destruct (step_grows st line a b Hb) as (b' & Hb' & Hg).
    exists b'. split; [done|]. eapply opensWith_grows; eassumption.
  - eexists. split; [exact Hnew|]. split; [reflexivity|].
    exists line, []. done.
Qed.

Lemma build_labelsOK input : labelsOK (build input).
Proof.
  apply (foldl_step_invariant labelsOK).
  - apply step_labelsOK.
  - intros name a Ha. simpl in Ha. by rewrite lookup_empty in Ha.
Qed.

Lemma blockOK_push line b :
  blockOK b → blockOK (ConstructingBlock.push_body line b).
Proof.
  intros [H1 H2]. split.
  - intros name Hn. destruct (H1 name Hn) as [Ht Ho]. split; [done|].
    eapply opensWith_grows; [apply grows_push|done].
  - intros _. unfold ConstructingBlock.nonEmpty. simpl.
    by destruct (ConstructingBlock.body b).
Qed.

Lemma blockOK_set_flow f b : blockOK b → blockOK (ConstructingBlock.set_flow f b).
Proof.
  intros [H1 H2]. split; [|exact H2].
  intros name Hn. destruct (H1 name Hn) as [Ht Ho]. split; [done|].
  eapply opensWith_grows; [apply grows_set_flow|done].
Qed.

Lemma blockOK_set_branch line t b :
  blockOK b →
  blockOK (ConstructingBlock.set_branch t (ConstructingBlock.push_body line b)).
Proof.
  intros [H1 H2]%(blockOK_push line). split.
  - intros name Hn. destruct (H1 name Hn) as [Ht Ho]. split; [done|].
    eapply opensWith_grows; [apply grows_set_branch|done].
  - intros _. unfold ConstructingBlock.nonEmpty. simpl.
    by destruct (ConstructingBlock.body b).
Qed.

Lemma blockOK_fresh d : blockOK (freshBlock d).
Proof. split; [done|]. simpl. by intros [? ?]. Qed.

Lemma blockOK_labelled line name :
  declaredName line = Some name →
  blockOK (ConstructingBlock.mk [line] (Some name) false None false).
Proof.
  intros Hd. split.
  - simpl. intros n [= <-]. split.
    + by apply declaredName_isLabel in Hd as [_ Ht].
    + split; [done|]. exists line, []. done.
  - simpl. by intros [? ?].
Qed.

Lemma step_blockOK st line :
  Forall blockOK (allBlocks st) → Forall blockOK (allBlocks (step st line)).
Proof.
  unfold allBlocks. rewrite Forall_app, Forall_singleton. intros [Hbs Hcur].
  step_cases st line; simpl; rewrite ?Forall_app, ?Forall_singleton.
  - split; [split; [done|]|].
    + by apply blockOK_set_flow.
    + by apply blockOK_labelled.
  - split; [split; [done|]|].
    + apply (blockOK_set_flow _ (ConstructingBlock.set_branch _ (ConstructingBlock.push_body _ _))).
      by apply blockOK_set_branch.
    + apply blockOK_fresh.
  - split; [split; [done|]|].
    + by apply blockOK_push.
    + apply blockOK_fresh.
  - split; [done|]. by apply blockOK_push.
Qed.

Lemma build_blockOK input : Forall blockOK (allBlocks (build input)).
Proof.
  apply (foldl_step_invariant (λ st, Forall blockOK (allBlocks st))).
  - apply step_blockOK.
  - unfold allBlocks. simpl. apply Forall_singleton. split; [done|].
    simpl. by intros [? ?].
Qed.

(** *** Declared names *)

Lemma declared_snoc pre line :
  declared (pre ++ [line]) = declared pre ++ option_list (declaredName line).
Proof.
  unfold declared. rewrite omap_app. simpl.
  destruct (declaredName line); reflexivity.
Qed.

Lemma step_block_labels st line :
  omap ConstructingBlock.label (allBlocks (step st line)) =
  omap ConstructingBlock.label (allBlocks st) ++ option_list (declaredName line).
Proof.
  unfold allBlocks.
  step_cases st line; simpl; rewrite !omap_app; simpl;
    rewrite <- ?app_assoc, ?app_nil_r; simpl; reflexivity.
Qed.

(** The labelled constructing blocks are, in order, the declarations of
    the stream. *)
Lemma build_block_labels input :
  omap ConstructingBlock.label (allBlocks (build input)) = declared input.
Proof.
  induction input as [|line pre IH] using rev_ind; [reflexivity|].
  rewrite build_snoc, step_block_labels, declared_snoc, IH. reflexivity.
Qed.

Lemma step_labels_dom st line :
  dom (labels (step st line)) =
  dom (labels st) ∪ list_to_set (option_list (declaredName line)).
Proof.
  step_cases st line; simpl; rewrite ?union_empty_r_L; try reflexivity.
  rewrite dom_insert_L. apply union_comm_L.
Qed.

Lemma build_labels_dom input :
  dom (labels (build input)) = list_to_set (declared input).
Proof.
  induction input as [|line pre IH] using rev_ind.
  - simpl. apply dom_empty_L.
  - rewrite build_snoc, step_labels_dom, declared_snoc, IH, list_to_set_app_L.
    reflexivity.
Qed.

(** The table knows a name exactly when the stream declares it. *)
Lemma labels_declared input name :
  is_Some (labels (build input) !! name) ↔ name ∈ declared input.
Proof.
  rewrite <- elem_of_dom, build_labels_dom, elem_of_list_to_set. reflexivity.
Qed.

Lemma labels_undeclared input name :
  labels (build input) !! name = None ↔ name ∉ declared input.
Proof.
  rewrite <- labels_declared, eq_None_not_Some. reflexivity.
Qed.

(** ** The graph assembler *)

(** *** Surviving blocks and their finished blocks *)

Lemma realBlock_Some all a d :
  realBlock all a = Some d ↔
  ∃ b, all !! a = Some b ∧ ConstructingBlock.nonEmpty b ∧
       d = length (survivors (take a all)).
Proof.
  unfold realBlock. split.
  - destruct (all !! a) as [b|]; [|done].
    destruct (decide (ConstructingBlock.nonEmpty b)); [|done].
    intros [= <-]. by exists b.
  - intros (b & -> & Hne & ->). by rewrite decide_True.
Qed.

(** The finished block of a surviving constructing block is built from it. *)
Lemma realBlock_survivor all a d :
  realBlock all a = Some d →
  ∃ b, all !! a = Some b ∧ survivors all !! d = Some b.
Proof.
  intros (b & Hb & Hne & ->)%realBlock_Some. exists b. split; [done|].
  pose proof (take_drop_middle all a b Hb) as Hsplit.
  set (pre := take a all) in *. rewrite <- Hsplit.
  unfold survivors. rewrite filter_app, filter_cons_True by done.
  rewrite lookup_app_r by lia. by rewrite Nat.sub_diag.
Qed.

Lemma survivors_nonEmpty all i b :
  survivors all !! i = Some b → ConstructingBlock.nonEmpty b.
Proof.
  intros H%list_elem_of_lookup_2. unfold survivors in H.
  by apply list_elem_of_filter in H as [? _].
Qed.

Lemma survivors_elem all b :
  b ∈ all → ConstructingBlock.nonEmpty b → b ∈ survivors all.
Proof. intros. unfold survivors. by apply list_elem_of_filter. Qed.

(** *** The linking loop *)

Section linking.

Variable blocks : list ConstructingBlock.t.
Variable labels : gmap string nat.
Variable all : list ConstructingBlock.t.

Lemma linkedUpTo_start : linkedUpTo blocks labels all 0 (imap newBlock blocks).
Proof.
  split; [apply length_imap|].
  intros j block Hj. rewrite list_lookup_imap, Hj. reflexivity.
Qed.

Lemma link_iteration k block cbs :
  blocks !! k = Some block → S k < length blocks → linkedUpTo blocks labels all k cbs →
  match unresolved labels all block with
  | Some target => link blocks labels all (S k) cbs = Throw (notFound target)
  | None => ∃ cbs', link blocks labels all (S k) cbs = Return cbs' ∧
                    linkedUpTo blocks labels all (S k) cbs'
  end.
Proof.
  intros Hk Hlt [Hlen Hinv]. unfold link, unresolved.
  replace (S k - 1) with k by lia. rewrite Hk.
  destruct (lookup_lt_is_Some_2 blocks (S k) Hlt) as [next Hnext].
  rewrite (Hinv _ _ Hnext). simpl.
  set (cbs1 := if ConstructingBlock.flow block
               then alter (Block.set_flow (Some (S k))) k cbs else cbs).
  assert (Hlen1 : length cbs1 = length blocks).
  { unfold cbs1. destruct (ConstructingBlock.flow block); [|done].
    by rewrite length_alter. }
  assert (Hk1 : cbs1 !! k =
    Some (if ConstructingBlock.flow block
          then Block.set_flow (Some (S k)) (newBlock k block)
          else newBlock k block)).
  { unfold cbs1. destruct (ConstructingBlock.flow block).
    - rewrite list_lookup_alter_eq, (Hinv _ _ Hk).
      rewrite decide_False by lia. reflexivity.
    - rewrite (Hinv _ _ Hk). rewrite decide_False by lia. reflexivity. }
  assert (Hother : ∀ j, j ≠ k → cbs1 !! j = cbs !! j).
  { intros j Hj. unfold cbs1. destruct (ConstructingBlock.flow block); [|done].
    by rewrite list_lookup_alter_ne. }
  assert (Hkeep : ∀ j b, j ≠ k → blocks !! j = Some b →
    cbs1 !! j = Some (if decide (j < S k) then linked labels all (length blocks) j b
                      else newBlock j b)).
  { intros j b Hj Hb. rewrite (Hother j Hj), (Hinv _ _ Hb).
    destruct (decide (j < k)), (decide (j < S k)); (done || lia). }
  assert (Hplain :
    (ConstructingBlock.branch block = None ∨
     ∃ t, ConstructingBlock.branch block = Some t ∧ JS.truthy t = false) →
    linkedUpTo blocks labels all (S k) cbs1).
  { intros Hb. split; [done|]. intros j b Hj.
    destruct (decide (j = k)) as [->|Hne]; [|by apply Hkeep].
    rewrite Hk in Hj. injection Hj as <-. rewrite Hk1.
    rewrite decide_True by lia. unfold linked. rewrite decide_True by lia.
    destruct Hb as [-> | (t & -> & ->)]; reflexivity. }
  destruct (ConstructingBlock.branch block) as [target|] eqn:Hbr.
  - destruct (JS.truthy target) eqn:Ht.
    + destruct (labels !! target ≫= realBlock all) as [d|] eqn:Hd; [|done].
      eexists. split; [reflexivity|]. split; [by rewrite length_alter|].
      intros j b Hj. destruct (decide (j = k)) as [->|Hne].
      * rewrite Hk in Hj. injection Hj as <-.
        rewrite list_lookup_alter_eq, Hk1. rewrite decide_True by lia.
        unfold linked. rewrite decide_True by lia. rewrite Hbr, Ht, Hd.
        reflexivity.
      * rewrite list_lookup_alter_ne by done. by apply Hkeep.
    + eexists. split; [reflexivity|]. apply Hplain. right. by exists target.
  - eexists. split; [reflexivity|]. apply Hplain. by left.
Qed.

(** The loop from iteration [S k] on: either it throws on the first block
    whose target does not resolve, or it links every block it visits. *)
Lemma forLoop_link count : ∀ k cbs,
  k + count < length blocks → linkedUpTo blocks labels all k cbs →
  (∃ cbs', forLoop (link blocks labels all) (S k) count cbs = Return cbs' ∧
           linkedUpTo blocks labels all (k + count) cbs' ∧
           ∀ j block, k ≤ j < k + count → blocks !! j = Some block →
                      unresolved labels all block = None) ∨
  (∃ j block target,
     forLoop (link blocks labels all) (S k) count cbs = Throw (notFound target) ∧
     k ≤ j < k + count ∧ blocks !! j = Some block ∧
     unresolved labels all block = Some target ∧
     ∀ j' block', k ≤ j' < j → blocks !! j' = Some block' →
                  unresolved labels all block' = None).
Proof.
  induction count as [|count IH]; intros k cbs Hlt Hinv.
  - left. exists cbs. split; [done|]. rewrite Nat.add_0_r. split; [done|].
    intros; lia.
  - destruct (lookup_lt_is_Some_2 blocks k ltac:(lia)) as [block Hk].
    pose proof (link_iteration k block cbs Hk ltac:(lia) Hinv) as Hit.
    simpl. destruct (unresolved labels all block) as [target|] eqn:Hun.
    + right. exists k, block, target. rewrite Hit.
      split; [done|]. split; [lia|]. split; [done|]. split; [done|].
      intros; lia.
    + destruct Hit as (cbs1 & -> & Hinv1).
      destruct (IH (S k) cbs1 ltac:(lia) Hinv1)
        as [(cbs' & Hrun & Hinv' & Hall) | (j & b & t & Hrun & Hj & Hb & Hu & Hbefore)].
      * left. exists cbs'. split; [done|].
        replace (k + S count) with (S k + count) by lia. split; [done|].
        intros j b Hj Hb. destruct (decide (j = k)) as [->|Hne].
        -- congruence.
        -- apply (Hall j b); [lia|done].
      * right. exists j, b, t. split; [done|]. split; [lia|].
        split; [done|]. split; [done|].
        intros j' b' Hj' Hb'. destruct (decide (j' = k)) as [->|Hne].
        -- congruence.
        -- apply (Hbefore j' b'); [lia|done].
Qed.

End linking.

(** *** The two outcomes of [extractBlocks] *)

Lemma linkedUpTo_finished blocks labels all bs :
  linkedUpTo blocks labels all (length blocks - 1) bs →
  bs = imap (finished labels all (length blocks)) blocks.
Proof.
  intros [Hlen Hinv]. apply list_eq. intros j.
  rewrite list_lookup_imap.
  destruct (blocks !! j) as [block|] eqn:Hj; simpl.
  - rewrite (Hinv _ _ Hj). unfold finished.
    destruct (decide (j < length blocks - 1)), (decide (S j < length blocks));
      (done || lia).
  - apply lookup_ge_None. apply lookup_ge_None in Hj. lia.
Qed.

(** [extractBlocks] either returns the array in which every surviving
    block but the last has been linked, or throws on the first surviving
    block, the last excepted, whose target does not resolve. *)
Lemma extractBlocks_outcome input :
  let st := build input in
  let all := allBlocks st in
  let surv := survivors all in
  (extractBlocks input =
     Return (imap (finished (labels st) all (length surv)) surv) ∧
   ∀ j block, S j < length surv → surv !! j = Some block →
              unresolved (labels st) all block = None) ∨
  (∃ j block target,
     extractBlocks input = Throw (notFound target) ∧
     S j < length surv ∧ surv !! j = Some block ∧
     unresolved (labels st) all block = Some target ∧
     ∀ j' block', j' < j → surv !! j' = Some block' →
                  unresolved (labels st) all block' = None).
Proof.
  intros st all surv. unfold extractBlocks. fold st all surv.
  destruct (decide (length surv = 0)) as [Hz|Hnz].
  - left. rewrite Hz. simpl. apply length_zero_iff_nil in Hz. rewrite Hz.
    split; [done|]. intros; simpl in *; lia.
  - destruct (forLoop_link surv (labels st) all (length surv - 1) 0
                (imap newBlock surv) ltac:(lia)
                (linkedUpTo_start surv (labels st) all))
      as [(bs & Hrun & Hinv & Hall) | (j & b & t & Hrun & Hj & Hb & Hu & Hbefore)].
    + left. rewrite Hrun. simpl in Hinv.
      rewrite (linkedUpTo_finished _ _ _ _ Hinv). split; [done|].
      intros j b Hj Hb. apply (Hall j b); [lia|done].
    + right. exists j, b, t. rewrite Hrun. split; [done|]. split; [lia|].
      split; [done|]. split; [done|].
      intros j' b' Hj' Hb'. apply (Hbefore j' b'); [lia|done].
Qed.

Lemma extractBlocks_Return input bs :
  extractBlocks input = Return bs →
  let st := build input in
  let all := allBlocks st in
  let surv := survivors all in
  bs = imap (finished (labels st) all (length surv)) surv ∧
  ∀ j block, S j < length surv → surv !! j = Some block →
             unresolved (labels st) all block = None.
Proof.
  intros Hret. cbv zeta.
  pose proof (extractBlocks_outcome input) as Hout. cbv zeta in Hout.
  destruct Hout as [[Heq Hall] | (j & b & t & Heq & _)];
    rewrite Heq in Hret; [|discriminate].
  injection Hret as <-. done.
Qed.

Lemma extractBlocks_Throw input message :
  extractBlocks input = Throw message →
  let st := build input in
  let all := allBlocks st in
  let surv := survivors all in
  ∃ j block target,
    message = notFound target ∧
    S j < length surv ∧ surv !! j = Some block ∧
    unresolved (labels st) all block = Some target ∧
    ∀ j' block', j' < j → surv !! j' = Some block' →
                 unresolved (labels st) all block' = None.
Proof.
  intros Hthrow. cbv zeta.
  pose proof (extractBlocks_outcome input) as Hout. cbv zeta in Hout.
  destruct Hout as [[Heq Hall] | (j & b & t & Heq & H)];
    rewrite Heq in Hthrow; [discriminate|].
  injection Hthrow as <-. exists j, b, t. done.
Qed.

(** *** Resolving a branch target *)

Lemma resolve_Some input target d :
  labels (build input) !! target ≫= realBlock (allBlocks (build input)) = Some d →
  ∃ a b,
    labels (build input) !! target = Some a ∧
    allBlocks (build input) !! a = Some b ∧ opensWith target b ∧
    realBlock (allBlocks (build input)) a = Some d ∧
    survivors (allBlocks (build input)) !! d = Some b.
Proof.
  intros H. destruct (labels (build input) !! target) as [a|] eqn:Ha; [|done].
  simpl in H. destruct (build_labelsOK input target a Ha) as (b & Hb & Ho).
  destruct (realBlock_survivor _ _ _ H) as (b' & Hb' & Hs).
  assert (b' = b) as -> by congruence.
  exists a, b. done.
Qed.

Lemma resolve_declared input target :
  target ∈ declared input →
  is_Some (labels (build input) !! target ≫= realBlock (allBlocks (build input))).
Proof.
  intros [a Ha]%labels_declared. rewrite Ha. simpl.
  destruct (build_labelsOK input target a Ha) as (b & Hb & Ho).
  exists (length (survivors (take a (allBlocks (build input))))).
  apply realBlock_Some. exists b. split; [done|]. split; [|done].
  eapply opensWith_nonEmpty, Ho.
Qed.

Lemma resolve_None input target :
  labels (build input) !! target ≫= realBlock (allBlocks (build input)) = None ↔
  target ∉ declared input.
Proof.
  split.
  - intros Hn Hd. apply resolve_declared in Hd as [d Hd]. congruence.
  - intros Hd. apply labels_undeclared in Hd. by rewrite Hd.
Qed.

Lemma truthy_nonempty s : JS.truthy s = true ↔ s ≠ "".
Proof. destruct s; simpl; split; done. Qed.

(** The linking iteration for a block throws exactly when the block
    carries a non-empty target that the stream does not declare. *)
Lemma unresolved_Some input block target :
  unresolved (labels (build input)) (allBlocks (build input)) block = Some target ↔
  ConstructingBlock.branch block = Some target ∧ target ≠ "" ∧
  target ∉ declared input.
Proof.
  unfold unresolved. rewrite <- truthy_nonempty, <- resolve_None. split.
  - destruct (ConstructingBlock.branch block) as [t|]; [|done].
    destruct (JS.truthy t) eqn:Ht; [|done].
    destruct (labels (build input) !! t ≫= realBlock _) eqn:Hr; [done|].
    intros [= <-]. done.
  - intros (-> & -> & ->). done.
Qed.

Lemma unresolved_None input block :
  unresolved (labels (build input)) (allBlocks (build input)) block = None ↔
  ∀ target, ConstructingBlock.branch block = Some target → target ≠ "" →
            target ∈ declared input.
Proof.
  split.
  - intros Hn t Hb Ht. destruct (decide (t ∈ declared input)) as [|Hnd]; [done|].
    assert (unresolved (labels (build input)) (allBlocks (build input)) block = Some t)
      as Hs by (by apply unresolved_Some).
    congruence.
  - intros H.
    destruct (unresolved _ _ block) as [t|] eqn:Hu; [|done].
    apply unresolved_Some in Hu as (Hb & Ht & Hd). destruct Hd. by apply H.
Qed.

(** *** The fields of a finished block *)

Lemma finished_contents labels all n j block :
  Block.contents (finished labels all n j block) = ConstructingBlock.body block.
Proof.
  unfold finished, linked.
  destruct (decide (S j < n)); [|done].
  destruct (ConstructingBlock.flow block),
           (ConstructingBlock.branch block) as [t|]; try done;
    destruct (JS.truthy t); done.
Qed.

Lemma finished_label labels all n j block :
  Block.label (finished labels all n j block) = Block.label (newBlock j block).
Proof.
  unfold finished, linked.
  destruct (decide (S j < n)); [|done].
  destruct (ConstructingBlock.flow block),
           (ConstructingBlock.branch block) as [t|]; try done;
    destruct (JS.truthy t); done.
Qed.

Lemma finished_dead labels all n j block :
  Block.dead (finished labels all n j block) = ConstructingBlock.dead block.
Proof.
  unfold finished, linked.
  destruct (decide (S j < n)); [|done].
  destruct (ConstructingBlock.flow block),
           (ConstructingBlock.branch block) as [t|]; try done;
    destruct (JS.truthy t); done.
Qed.

Lemma finished_flow labels all n j block :
  Block.flow (finished labels all n j block) =
  if decide (S j < n) then
    if ConstructingBlock.flow block then Some (S j) else None
  else None.
Proof.
  unfold finished, linked.
  destruct (decide (S j < n)); [|done].
  destruct (ConstructingBlock.flow block),
           (ConstructingBlock.branch block) as [t|]; try done;
    destruct (JS.truthy t); done.
Qed.

Lemma finished_branch labels all n j block :
  Block.branch (finished labels all n j block) =
  if decide (S j < n) then
    match ConstructingBlock.branch block with
    | Some target =>
        if JS.truthy target then labels !! target ≫= realBlock all else None
    | None => None
    end
  else None.
Proof.
  unfold finished, linked.
  destruct (decide (S j < n)); [|done].
  destruct (ConstructingBlock.flow block),
           (ConstructingBlock.branch block) as [t|]; try done;
    destruct (JS.truthy t); done.
Qed.

Lemma newBlock_label_declared j block name :
  ConstructingBlock.label block = Some name → JS.truthy name = true →
  Block.label (newBlock j block) = name.
Proof. unfold newBlock. simpl. intros -> ->. reflexivity. Qed.

Lemma newBlock_label_synthesized j block :
  ConstructingBlock.label block = None →
  Block.label (newBlock j block) = synthesized j.
Proof. unfold newBlock. simpl. intros ->. reflexivity. Qed.

(** Finished block [i] is built from surviving block [i]. *)
Lemma extractBlocks_lookup input bs i b :
  extractBlocks input = Return bs → bs !! i = Some b →
  ∃ block,
    survivors (allBlocks (build input)) !! i = Some block ∧
    b = finished (labels (build input)) (allBlocks (build input))
                 (length (survivors (allBlocks (build input)))) i block.
Proof.
  intros [-> _]%extractBlocks_Return. rewrite list_lookup_imap.
  destruct (survivors (allBlocks (build input)) !! i) as [block|]; [|done].
  simpl. intros [= <-]. by exists block.
Qed.

Lemma extractBlocks_length input bs :
  extractBlocks input = Return bs →
  length bs = length (survivors (allBlocks (build input))).
Proof. intros [-> _]%extractBlocks_Return. apply length_imap. Qed.

(** ** Properties of the finished graph *)

(** C5.  On every stream on which [extractBlocks] returns, every finished
    block has a non-empty body; the bodies of the finished blocks are, in
    order, those of the constructing blocks that are not empty, so an empty
    constructing block (the trailing one after a closing branch or
    terminator included) never reaches the output. *)
Theorem finished_bodies_nonempty (input : list string) (bs : list Block.t) :
  extractBlocks input = Return bs →
  Forall (λ b, Block.contents b ≠ []) bs ∧
  Block.contents <$> bs =
    ConstructingBlock.body <$>
      filter ConstructingBlock.nonEmpty (allBlocks (build input)).
Proof.
  intros Hret. split.
  - apply Forall_lookup. intros i b Hb.
    destruct (extractBlocks_lookup _ _ _ _ Hret Hb) as (block & Hs & ->).
    rewrite finished_contents. by apply survivors_nonEmpty in Hs.
  - apply extractBlocks_Return in Hret as [-> _].
    apply list_eq. intros i. rewrite !list_lookup_fmap, list_lookup_imap.
    fold (survivors (allBlocks (build input))).
    destruct (survivors (allBlocks (build input)) !! i) as [block|]; [|done].
    simpl. by rewrite finished_contents.
Qed.

Lemma finished_bodies_nonempty_witness :
  Forall (λ b, Block.contents b ≠ [])
         [Block.mk ["b l0"] "b0" false None (Some 1%nat);
          Block.mk ["l0:"; "return"] "l0" false None None].
Proof.
  exact (proj1 (finished_bodies_nonempty ["b l0"; "l0:"; "return"] _ scenario_B)).
Defined.

(** C3.  On every stream on which [extractBlocks] returns, a fallthrough
    successor of the finished block at position [i] is the block at
    position [i + 1] of the returned list, whatever labels that block
    carries; the last block of the list has no fallthrough successor. *)
Theorem fallthrough_is_positional (input : list string) (bs : list Block.t) :
  extractBlocks input = Return bs →
  (∀ i b s, bs !! i = Some b → Block.flow b = Some s →
            s = S i ∧ is_Some (bs !! S i)) ∧
  (∀ b, last bs = Some b → Block.flow b = None).
Proof.
  intros Hret. pose proof (extractBlocks_length _ _ Hret) as Hlen. split.
  - intros i b s Hb Hflow.
    destruct (extractBlocks_lookup _ _ _ _ Hret Hb) as (block & Hs & ->).
    rewrite finished_flow in Hflow.
    destruct (decide (S i < _)) as [Hlt|]; [|done].
    destruct (ConstructingBlock.flow block); [|done].
    injection Hflow as <-. split; [done|].
    apply lookup_lt_is_Some. lia.
  - intros b Hb. rewrite last_lookup in Hb.
    destruct (extractBlocks_lookup _ _ _ _ Hret Hb) as (block & Hs & ->).
    rewrite finished_flow. rewrite decide_False; [done|]. lia.
Qed.

Lemma fallthrough_is_positional_witness :
  1%nat = S 0 ∧
  is_Some ([Block.mk ["bnz l1"] "b0" false (Some 1%nat) (Some 2%nat);
            Block.mk ["int 1"] "b1" true (Some 2%nat) None;
            Block.mk ["l1:"; "err"] "l1" false None None] !! 1%nat).
Proof.
  exact (proj1 (fallthrough_is_positional
                  ["bnz l1"; "int 1"; "l1:"; "err"] _ scenario_C)
               0 _ 1 eq_refl eq_refl).
Defined.

(** C4.  On every stream on which [extractBlocks] returns, a branch
    successor of a finished block is the finished block of the
    constructing block that the label table holds for the recorded target:
    that block opens with the declaration of the target (its first body
    line is a label line for it), and the successor's label is the
    recorded target. *)
Theorem branch_successor_opens_with_label (input : list string)
    (bs : list Block.t) (i : nat) (b : Block.t) (d : nat) :
  extractBlocks input = Return bs →
  bs !! i = Some b → Block.branch b = Some d →
  ∃ block target a opener succ,
    survivors (allBlocks (build input)) !! i = Some block ∧
    ConstructingBlock.branch block = Some target ∧
    labels (build input) !! target = Some a ∧
    allBlocks (build input) !! a = Some opener ∧
    opensWith target opener ∧
    realBlock (allBlocks (build input)) a = Some d ∧
    bs !! d = Some succ ∧
    Block.contents succ = ConstructingBlock.body opener ∧
    Block.label succ = target.
Proof.
  intros Hret Hb Hbranch.
  destruct (extractBlocks_lookup _ _ _ _ Hret Hb) as (block & Hs & ->).
  rewrite finished_branch in Hbranch.
  destruct (decide (S i < _)) as [Hlt|]; [|done].
  destruct (ConstructingBlock.branch block) as [target|] eqn:Hbr; [|done].
  destruct (JS.truthy target) eqn:Ht; [|done].
  destruct (resolve_Some _ _ _ Hbranch) as (a & opener & Ha & Hop & Hopen & Hreal & Hd).
  pose proof (extractBlocks_Return _ _ Hret) as [Hbs _].
  exists block, target, a, opener,
    (finished (labels (build input)) (allBlocks (build input))
              (length (survivors (allBlocks (build input)))) d opener).
  repeat (split; [done|]). split; [|split].
  - rewrite Hbs at 1. rewrite list_lookup_imap, Hd. reflexivity.
  - apply finished_contents.
  - rewrite finished_label. destruct Hopen as [Hl _].
    by apply newBlock_label_declared.
Qed.

Lemma branch_successor_opens_with_label_witness :
  ∃ succ,
    [Block.mk ["b l0"] "b0" false None (Some 1%nat);
     Block.mk ["l0:"; "return"] "l0" false None None] !! 1%nat = Some succ ∧
    Block.label succ = "l0".
Proof.
  destruct (branch_successor_opens_with_label
              ["b l0"; "l0:"; "return"] _ 0 _ 1 scenario_B eq_refl eq_refl)
    as (block & target & a & opener & succ & Hs & Hbr & _ & _ & _ & _ & Hsucc & _ & Hl).
  exists succ. split; [exact Hsucc|].
  vm_compute in Hs. injection Hs as <-. simpl in Hbr. injection Hbr as <-.
  exact Hl.
Defined.

(** ** The classifier *)

(** C7, as amended.  A branch line is never a label line and never a
    terminator line.  The label test and the terminator test can both hold
    of one line; the builder asks for the label first, so such a line
    opens a labelled block whatever [isTerminator] says of it. *)
Theorem classifier_overlap (line : string) :
  isLabel line && isBranch line = false ∧
  isBranch line && isTerminator line = false ∧
  ∀ st name,
    declaredName line = Some name →
    step st line =
    mkBuilder (blocks st ++ [ConstructingBlock.set_flow true (curBlock st)])
              (<[name := S (length (blocks st))]> (labels st))
              (ConstructingBlock.mk [line] (Some name) false None false).
Proof.
  split; [|split].
  - destruct (isBranch line) eqn:Hb.
    + rewrite (isBranch_not_isLabel line Hb). reflexivity.
    + apply andb_false_r.
  - destruct (isBranch line) eqn:Hb.
    + rewrite (isBranch_not_isTerminator line Hb). reflexivity.
    + reflexivity.
  - intros st name Hd. by apply step_label.
Qed.

Lemma classifier_overlap_witness :
  step initBuilder "err:" =
  mkBuilder [ConstructingBlock.mk [] None true None false]
            (<["err" := 1%nat]> ∅)
            (ConstructingBlock.mk ["err:"] (Some "err") false None false).
Proof.
  exact (proj2 (proj2 (classifier_overlap "err:")) initBuilder "err" eq_refl).
Defined.

(** The line [err:] is at once a label declaration with a usable name and
    a terminator. *)
Lemma label_and_terminator_overlap :
  getLabelMaybe "err:" = Some "err" ∧ isLabel "err:" = true ∧
  isTerminator "err:" = true.
Proof. repeat split. Qed.

(** ** The builder on closing lines *)

(** C10.  A line that is neither a label line nor a branch line and whose
    text begins with [err] or [return] is appended to the current block,
    which is then closed with no fallthrough and no branch target; the
    block opened next is dead.  Only the prefix counts, so [errata] and
    [returned 5] close their block too. *)
Theorem terminator_prefix_closes_block (pre : list string) (line : string) :
  isLabel line = false → isBranch line = false →
  (JS.startsWith "err" line = true ∨ JS.startsWith "return" line = true) →
  let st := build pre in
  let closed := ConstructingBlock.push_body line (curBlock st) in
  build (pre ++ [line]) =
    mkBuilder (blocks st ++ [closed]) (labels st)
              (ConstructingBlock.mk [] None false None true) ∧
  ConstructingBlock.body closed = ConstructingBlock.body (curBlock st) ++ [line] ∧
  ConstructingBlock.flow closed = false ∧
  ConstructingBlock.branch closed = None.
Proof.
  intros Hl Hb Ht st closed.
  apply isLabel_declaredName in Hl.
  assert (getBranchMaybe line = None) as Hb'.
  { unfold isBranch in Hb. by destruct (getBranchMaybe line). }
  assert (isTerminator line = true) as Ht'.
  { unfold isTerminator. destruct Ht as [-> | ->]; [done|apply orb_true_r]. }
  destruct (build_openBlock pre) as [Hflow Hbranch].
  split; [|done].
  rewrite build_snoc. by apply step_terminator.
Qed.

Lemma terminator_prefix_closes_block_witness :
  build (["int 1"] ++ ["errata"]) =
    mkBuilder [ConstructingBlock.mk ["int 1"; "errata"] None false None false]
              ∅ (ConstructingBlock.mk [] None false None true) ∧
  build ([] ++ ["returned 5"]) =
    mkBuilder [ConstructingBlock.mk ["returned 5"] None false None false]
              ∅ (ConstructingBlock.mk [] None false None true).
Proof.
  split.
  - exact (proj1 (terminator_prefix_closes_block ["int 1"] "errata"
                    eq_refl eq_refl (or_introl eq_refl))).
  - exact (proj1 (terminator_prefix_closes_block [] "returned 5"
                    eq_refl eq_refl (or_intror eq_refl))).
Defined.

(** A block closed by such a line stays as it was closed, and so reaches
    the finished graph without successors. *)
Lemma terminator_block_final pre line post :
  isLabel line = false → isBranch line = false → isTerminator line = true →
  allBlocks (build (pre ++ line :: post)) !! length (blocks (build pre)) =
    Some (ConstructingBlock.push_body line (curBlock (build pre))).
Proof.
  intros Hl Hb Ht. apply isLabel_declaredName in Hl.
  assert (getBranchMaybe line = None) as Hb'.
  { unfold isBranch in Hb. by destruct (getBranchMaybe line). }
  rewrite (build_app pre (line :: post)). simpl.
  apply closed_block_final.
  rewrite (step_terminator _ _ Hl Hb' Ht). simpl.
  rewrite lookup_app_r by lia. by rewrite Nat.sub_diag.
Qed.

(** The dead flag of the block opened after a branch line is the flow
    flag of the block that the branch closed. *)
Lemma branch_step_dead st line mnemonic target :
  isLabel line = false → getBranchMaybe line = Some (mnemonic, target) →
  ConstructingBlock.dead (curBlock (step st line)) =
    negb (String.eqb mnemonic "b") ∧
  ∃ closed, last (blocks (step st line)) = Some closed ∧
            ConstructingBlock.flow closed = negb (String.eqb mnemonic "b") ∧
            ConstructingBlock.branch closed = Some target.
Proof.
  intros Hl%isLabel_declaredName Hb. rewrite (step_branch _ _ _ _ Hl Hb). simpl.
  split; [done|]. eexists. rewrite last_snoc. done.
Qed.

(** C1, on the code.  In the stream of scenario E the block [int 9], which
    follows the unconditional branch, is returned with [dead = false]; its
    fallthrough successor is the block labelled [l0].  After the
    conditional branch of scenario C the block [int 1] is returned with
    [dead = true]. *)
Theorem dead_flag_after_branch :
  extractBlocks ["b l0"; "int 9"; "l0:"; "err"] =
    Return [Block.mk ["b l0"] "b0" false None (Some 2%nat);
            Block.mk ["int 9"] "b1" false (Some 2%nat) None;
            Block.mk ["l0:"; "err"] "l0" false None None] ∧
  extractBlocks ["bnz l1"; "int 1"; "l1:"; "err"] =
    Return [Block.mk ["bnz l1"] "b0" false (Some 1%nat) (Some 2%nat);
            Block.mk ["int 1"] "b1" true (Some 2%nat) None;
            Block.mk ["l1:"; "err"] "l1" false None None].
Proof. split; [exact scenario_E|exact scenario_C]. Qed.

(** *** Which block is the last one *)

Lemma nonEmpty_grows b b' :
  grows b b' → ConstructingBlock.nonEmpty b → ConstructingBlock.nonEmpty b'.
Proof.
  intros (_ & _ & more & Hb) Hne. unfold ConstructingBlock.nonEmpty in *.
  rewrite Hb. by destruct (ConstructingBlock.body b).
Qed.

Lemma nonEmpty_push line b :
  ConstructingBlock.nonEmpty (ConstructingBlock.push_body line b).
Proof.
  unfold ConstructingBlock.nonEmpty. simpl.
  by destruct (ConstructingBlock.body b).
Qed.

(** Any further line leaves a non-empty block at or after the address of
    the block that was current. *)
Lemma later_nonEmpty st post :
  post ≠ [] →
  ∃ a b, (length (blocks st) ≤ a)%nat ∧
         allBlocks (foldl step st post) !! a = Some b ∧
         ConstructingBlock.nonEmpty b.
Proof.
  destruct post as [|line post]; [done|]. intros _. simpl.
  assert (∃ a b, (length (blocks st) ≤ a)%nat ∧
                 allBlocks (step st line) !! a = Some b ∧
                 ConstructingBlock.nonEmpty b) as (a & b & Ha & Hb & Hne).
  { unfold allBlocks. step_cases st line; simpl.
    - exists (S (length (blocks st))). eexists. split; [lia|]. split.
      + rewrite lookup_app_r by (rewrite length_app; simpl; lia).
        rewrite length_app. simpl.
        replace (S (length (blocks st)) - (length (blocks st) + 1)) with 0 by lia.
        reflexivity.
      + done.
    - exists (length (blocks st)). eexists. split; [lia|]. split.
      + rewrite <- app_assoc. rewrite lookup_app_r by lia.
        rewrite Nat.sub_diag. reflexivity.
      + apply (nonEmpty_push line).
    - exists (length (blocks st)). eexists. split; [lia|]. split.
      + rewrite <- app_assoc. rewrite lookup_app_r by lia.
        rewrite Nat.sub_diag. reflexivity.
      + apply nonEmpty_push.
    - exists (length (blocks st)). eexists. split; [lia|]. split.
      + rewrite lookup_app_r by lia. rewrite Nat.sub_diag. reflexivity.
      + apply nonEmpty_push. }
  destruct (foldl_step_grows _ post _ _ Hb) as (b' & Hb' & Hg).
  exists a, b'. split; [done|]. split; [done|].
  eapply nonEmpty_grows; eassumption.
Qed.

Lemma survivor_not_last all a b a' b' :
  all !! a = Some b → ConstructingBlock.nonEmpty b →
  all !! a' = Some b' → ConstructingBlock.nonEmpty b' → a < a' →
  S (length (survivors (take a all))) < length (survivors all).
Proof.
  intros Ha Hne Ha' Hne' Hlt.
  pose proof (take_drop_middle all a b Ha) as Hsplit.
  assert (b' ∈ survivors (drop (S a) all)) as Hin.
  { apply survivors_elem; [|done].
    apply list_elem_of_lookup. exists (a' - S a).
    rewrite lookup_drop. by replace (S a + (a' - S a)) with a' by lia. }
  rewrite <- Hsplit at 2. unfold survivors in *.
  rewrite filter_app, filter_cons_True, length_app by done. simpl.
  destruct (filter ConstructingBlock.nonEmpty (drop (S a) all)) as [|x xs].
  - by apply elem_of_nil in Hin.
  - simpl. lia.
Qed.

(** A branch line closes a block that carries its target; the block is the
    last surviving one only if the line is the last of the stream. *)
Lemma branch_line_block pre line post mnemonic target :
  isLabel line = false → getBranchMaybe line = Some (mnemonic, target) →
  ∃ i block,
    survivors (allBlocks (build (pre ++ line :: post))) !! i = Some block ∧
    ConstructingBlock.branch block = Some target ∧
    ConstructingBlock.flow block = negb (String.eqb mnemonic "b") ∧
    (post ≠ [] →
     S i < length (survivors (allBlocks (build (pre ++ line :: post))))).
Proof.
  intros Hl%isLabel_declaredName Hb.
  set (st := build pre).
  set (closed := ConstructingBlock.set_branch target
                   (ConstructingBlock.set_flow (negb (String.eqb mnemonic "b"))
                      (ConstructingBlock.push_body line (curBlock st)))).
  set (all := allBlocks (build (pre ++ line :: post))).
  assert (Hclosed : all !! length (blocks st) = Some closed).
  { unfold all. rewrite (build_app pre (line :: post)). simpl.
    apply closed_block_final. fold st.
    rewrite (step_branch _ _ _ _ Hl Hb). simpl.
    rewrite lookup_app_r by lia. by rewrite Nat.sub_diag. }
  assert (Hne : ConstructingBlock.nonEmpty closed).
  { unfold closed, ConstructingBlock.nonEmpty. simpl.
    by destruct (ConstructingBlock.body (curBlock st)). }
  exists (length (survivors (take (length (blocks st)) all))), closed.
  split; [|split; [done|split; [done|]]].
  - destruct (realBlock_survivor all (length (blocks st)) _
                ltac:(apply realBlock_Some; exists closed; done))
      as (b & Hb1 & Hb2).
    congruence.
  - intros Hpost.
    destruct (later_nonEmpty (step st line) post Hpost) as (a' & b' & Ha' & Hb' & Hne').
    apply (survivor_not_last all (length (blocks st)) closed a' b'); try done.
    + unfold all. rewrite (build_app pre (line :: post)). exact Hb'.
    + rewrite (step_branch _ _ _ _ Hl Hb) in Ha'. simpl in Ha'.
      rewrite length_app in Ha'. simpl in Ha'. lia.
Qed.

(** ** Unresolved and empty branch targets *)

Lemma survivors_subset all i block :
  survivors all !! i = Some block → block ∈ all.
Proof.
  intros H%list_elem_of_lookup_2. unfold survivors in H.
  by apply list_elem_of_filter in H as [_ ?].
Qed.

Lemma first_unresolved_throws input i block target :
  S i < length (survivors (allBlocks (build input))) →
  survivors (allBlocks (build input)) !! i = Some block →
  ConstructingBlock.branch block = Some target →
  target ≠ "" → target ∉ declared input →
  ∃ j culprit missing,
    (j ≤ i)%nat ∧
    survivors (allBlocks (build input)) !! j = Some culprit ∧
    ConstructingBlock.branch culprit = Some missing ∧
    missing ≠ "" ∧ (missing ∉ declared input) ∧
    extractBlocks input = Throw (notFound missing).
Proof.
  pose proof (extractBlocks_outcome input) as Hout. cbv zeta in Hout.
  intros Hi Hs Hbr Hne Hund.
  assert (Hu : unresolved (labels (build input)) (allBlocks (build input)) block
               = Some target) by (by apply unresolved_Some).
  destruct Hout as [[_ Hall] | (j & b & t & Hthrow & Hj & Hb & Hub & Hbefore)].
  - rewrite (Hall i block Hi Hs) in Hu. discriminate.
  - exists j, b, t. apply unresolved_Some in Hub as (? & ? & ?).
    split; [|done].
    destruct (decide (j ≤ i)%nat) as [|Hgt]; [done|].
    rewrite (Hbefore i block ltac:(lia) Hs) in Hu. discriminate.
Qed.

Lemma all_declared_returns input :
  (∀ block target,
     block ∈ allBlocks (build input) →
     ConstructingBlock.branch block = Some target →
     target ∈ declared input) →
  ∃ bs, extractBlocks input = Return bs.
Proof.
  pose proof (extractBlocks_outcome input) as Hout. cbv zeta in Hout.
  intros Hdecl.
  destruct Hout as [[Hret _] | (j & b & t & _ & _ & Hb & Hub & _)].
  - eexists. exact Hret.
  - apply unresolved_Some in Hub as (Hbr & _ & Hund).
    destruct Hund. apply (Hdecl b); [|done].
    eapply survivors_subset, Hb.
Qed.

(** In terms of the stream: a branch line that is not the last line and
    whose non-empty target is declared nowhere makes [extractBlocks]
    throw. *)
Lemma undeclared_target_throws_stream pre line post mnemonic target :
  isLabel line = false → getBranchMaybe line = Some (mnemonic, target) →
  post ≠ [] → target ≠ "" → target ∉ declared (pre ++ line :: post) →
  ∃ missing,
    (missing ∉ declared (pre ++ line :: post)) ∧
    extractBlocks (pre ++ line :: post) = Throw (notFound missing).
Proof.
  intros Hl Hb Hpost Hne Hund.
  destruct (branch_line_block pre line post mnemonic target Hl Hb)
    as (i & block & Hs & Hbr & _ & Hlast).
  destruct (first_unresolved_throws _ i block target (Hlast Hpost) Hs Hbr Hne Hund)
    as (j & culprit & missing & _ & _ & _ & _ & Hm & Hthrow).
  exists missing. done.
Qed.

(** C2, as amended.  If a surviving block other than the last carries a
    non-empty target that the stream declares nowhere, [extractBlocks]
    throws, naming the target of the first such block, and returns no
    graph.  If every target carried by a block is declared,
    [extractBlocks] returns. *)
Theorem undeclared_target_throws (input : list string) :
  (∀ i block target,
     S i < length (survivors (allBlocks (build input))) →
     survivors (allBlocks (build input)) !! i = Some block →
     ConstructingBlock.branch block = Some target →
     target ≠ "" → target ∉ declared input →
     ∃ j culprit missing,
       (j ≤ i)%nat ∧
       survivors (allBlocks (build input)) !! j = Some culprit ∧
       ConstructingBlock.branch culprit = Some missing ∧
       missing ≠ "" ∧ (missing ∉ declared input) ∧
       extractBlocks input = Throw (notFound missing)) ∧
  ((∀ block target,
      block ∈ allBlocks (build input) →
      ConstructingBlock.branch block = Some target →
      target ∈ declared input) →
   ∃ bs, extractBlocks input = Return bs).
Proof.
  split.
  - intros i block target. apply first_unresolved_throws.
  - apply all_declared_returns.
Qed.

Lemma undeclared_target_throws_witness :
  ∃ j culprit missing,
    (j ≤ 0)%nat ∧
    survivors (allBlocks (build ["b missing"; "return"])) !! j = Some culprit ∧
    ConstructingBlock.branch culprit = Some missing ∧
    missing ≠ "" ∧ (missing ∉ declared ["b missing"; "return"]) ∧
    extractBlocks ["b missing"; "return"] = Throw (notFound missing).
Proof.
  apply (proj1 (undeclared_target_throws ["b missing"; "return"])
           0 (ConstructingBlock.mk ["b missing"] None false (Some "missing") false)
           "missing").
  - vm_compute. lia.
  - vm_compute. reflexivity.
  - reflexivity.
  - discriminate.
  - vm_compute. intros H. inversion H.
Defined.

(** Two streams with an undeclared target on which [extractBlocks]
    returns a graph: the empty target of [b ] is passed over by the link
    step, and the block closed by [b missing] is the last one, which the
    link step never visits. *)
Lemma undeclared_target_returns :
  (ConstructingBlock.mk ["b "] None false (Some "") false
     ∈ blocks (build ["b "; "int 1"]) ∧
   ("" ∉ declared ["b "; "int 1"]) ∧
   extractBlocks ["b "; "int 1"] =
     Return [Block.mk ["b "] "b0" false None None;
             Block.mk ["int 1"] "b1" false None None]) ∧
  (ConstructingBlock.mk ["b missing"] None false (Some "missing") false
     ∈ blocks (build ["b missing"]) ∧
   ("missing" ∉ declared ["b missing"]) ∧
   extractBlocks ["b missing"] =
     Return [Block.mk ["b missing"] "b0" false None None]).
Proof.
  split; (split; [vm_compute; apply list_elem_of_here|]);
    (split; [vm_compute; intros H; inversion H|]); vm_compute; reflexivity.
Qed.

(** C9.  A branch mnemonic followed by one space and nothing else is a
    branch line with the empty string as target: the builder closes the
    current block on it with that target.  In the link step such a block
    gets no branch successor, and the error [extractBlocks] may throw never
    names the empty target, only a non-empty undeclared one; on the stream
    made of that line and one instruction [extractBlocks] returns. *)
Theorem empty_target_is_skipped (mnemonic : string) :
  mnemonic = "b" ∨ mnemonic = "bz" ∨ mnemonic = "bnz" →
  let line := mnemonic +:+ " " in
  let flow := negb (String.eqb mnemonic "b") in
  isLabel line = false ∧
  getBranchMaybe line = Some (mnemonic, "") ∧
  (∀ pre post,
     allBlocks (build (pre ++ line :: post)) !! length (blocks (build pre)) =
       Some (ConstructingBlock.set_branch ""
               (ConstructingBlock.set_flow flow
                  (ConstructingBlock.push_body line (curBlock (build pre)))))) ∧
  (∀ input bs i block b,
     extractBlocks input = Return bs →
     survivors (allBlocks (build input)) !! i = Some block →
     ConstructingBlock.branch block = Some "" →
     bs !! i = Some b → Block.branch b = None) ∧
  (∀ input message,
     extractBlocks input = Throw message →
     ∃ target, message = notFound target ∧ target ≠ "" ∧
               (target ∉ declared input)) ∧
  extractBlocks [line; "int 1"] =
    Return [Block.mk [line] "b0" false (if flow then Some 1%nat else None) None;
            Block.mk ["int 1"] "b1" flow None None].
Proof.
  intros Hm line flow.
  assert (Hl : isLabel line = false)
    by (destruct Hm as [-> | [-> | ->]]; reflexivity).
  assert (Hb : getBranchMaybe line = Some (mnemonic, ""))
    by (destruct Hm as [-> | [-> | ->]]; reflexivity).
  split; [done|]. split; [done|]. split; [|split; [|split]].
  - intros pre post. rewrite (build_app pre (line :: post)). simpl.
    apply closed_block_final.
    rewrite (step_branch _ _ _ _ (proj1 (isLabel_declaredName _) Hl) Hb). simpl.
    rewrite lookup_app_r by lia. by rewrite Nat.sub_diag.
  - intros input bs i block b Hret Hs Hbr Hbs.
    destruct (extractBlocks_lookup _ _ _ _ Hret Hbs) as (block' & Hs' & ->).
    assert (block' = block) as -> by congruence.
    rewrite finished_branch, Hbr. simpl. by destruct (decide _).
  - intros input message Hthrow.
    destruct (extractBlocks_Throw _ _ Hthrow) as (j & b & t & -> & _ & _ & Hu & _).
    apply unresolved_Some in Hu as (_ & ? & ?). by exists t.
  - destruct Hm as [-> | [-> | ->]]; vm_compute; reflexivity.
Qed.

Lemma empty_target_is_skipped_witness :
  extractBlocks ["b "; "int 1"] =
    Return [Block.mk ["b "] "b0" false None None;
            Block.mk ["int 1"] "b1" false None None] ∧
  extractBlocks ["bnz "; "int 1"] =
    Return [Block.mk ["bnz "] "b0" false (Some 1%nat) None;
            Block.mk ["int 1"] "b1" true None None].
Proof.
  split.
  - exact (proj2 (proj2 (proj2 (proj2 (proj2
             (empty_target_is_skipped "b" (or_introl eq_refl))))))).
  - exact (proj2 (proj2 (proj2 (proj2 (proj2
             (empty_target_is_skipped "bnz" (or_intror (or_intror eq_refl)))))))).
Defined.

(** ** Labels of the finished blocks *)

Lemma synthesized_inj i j : synthesized i = synthesized j → i = j.
Proof.
  unfold synthesized. intros H.
  change (String "b" (pretty i) = String "b" (pretty j)) in H.
  injection H as H. exact (inj pretty _ _ H).
Qed.

Lemma omap_cons_app {A B} (f : A → option B) x l :
  omap f (x :: l) = option_list (f x) ++ omap f l.
Proof. simpl. by destruct (f x). Qed.

Lemma survivors_labels all :
  Forall blockOK all →
  omap ConstructingBlock.label (survivors all) = omap ConstructingBlock.label all.
Proof.
  unfold survivors. induction 1 as [|b all [Hlab _] _ IH]; [done|].
  rewrite (omap_cons_app _ b all).
  destruct (decide (ConstructingBlock.nonEmpty b)) as [Hne|Hempty].
  - rewrite filter_cons_True by done. rewrite omap_cons_app. by rewrite IH.
  - rewrite filter_cons_False by done. rewrite IH.
    destruct (ConstructingBlock.label b) as [name|] eqn:Hn; [|done].
    destruct (Hlab name eq_refl) as [_ Ho].
    destruct Hempty. by apply (opensWith_nonEmpty name).
Qed.

Lemma survivors_blockOK all : Forall blockOK all → Forall blockOK (survivors all).
Proof.
  intros H. apply Forall_forall. intros b Hb. unfold survivors in Hb.
  apply list_elem_of_filter in Hb as [_ Hb].
  by apply (proj1 (Forall_forall _ _) H).
Qed.

Lemma newBlock_finishedLabel j block :
  blockOK block → Block.label (newBlock j block) = finishedLabel j block.
Proof.
  intros [Hlab _]. unfold finishedLabel.
  destruct (ConstructingBlock.label block) as [name|] eqn:Hn.
  - destruct (Hlab name eq_refl) as [Ht _]. by apply newBlock_label_declared.
  - by apply newBlock_label_synthesized.
Qed.

Lemma finishedLabel_elem k l x :
  x ∈ imap (λ i, finishedLabel (k + i)) l →
  x ∈ omap ConstructingBlock.label l ∨
  ∃ i b, l !! i = Some b ∧ ConstructingBlock.label b = None ∧
         x = synthesized (k + i).
Proof.
  intros (i & b & -> & Hb)%elem_of_lookup_imap. unfold finishedLabel.
  destruct (ConstructingBlock.label b) as [name|] eqn:Hn; simpl.
  - left. apply list_elem_of_omap. exists b. split; [|done].
    by eapply list_elem_of_lookup_2.
  - right. by exists i, b.
Qed.

(** Declared names that do not repeat and do not take the synthesized name
    of an unlabelled block give pairwise distinct labels. *)
Lemma finishedLabel_NoDup l : ∀ k,
  NoDup (omap ConstructingBlock.label l) →
  (∀ i b, l !! i = Some b → ConstructingBlock.label b = None →
          synthesized (k + i) ∉ omap ConstructingBlock.label l) →
  NoDup (imap (λ i, finishedLabel (k + i)) l).
Proof.
  induction l as [|b l IH]; intros k Hnd Hsyn; [constructor|].
  rewrite imap_cons. rewrite Nat.add_0_r.
  assert (Hext : imap ((λ i, finishedLabel (k + i)) ∘ S) l =
                 imap (λ i, finishedLabel (S k + i)) l).
  { apply imap_ext. intros i x _. simpl. f_equal. lia. }
  rewrite Hext. apply NoDup_cons. split.
  - intros [Hin | (i & b' & Hb' & Hn' & Heq)]%finishedLabel_elem.
    + unfold finishedLabel in Hin.
      destruct (ConstructingBlock.label b) as [name|] eqn:Hn; simpl in *.
      * rewrite Hn in Hnd. apply NoDup_cons in Hnd as [Hnot _]. done.
      * apply (Hsyn 0 b eq_refl Hn). rewrite Nat.add_0_r. simpl. by rewrite Hn.
    + unfold finishedLabel in Heq.
      destruct (ConstructingBlock.label b) as [name|] eqn:Hn; simpl in *.
      * apply (Hsyn (S i) b' Hb' Hn'). rewrite Hn.
        replace (k + S i) with (S (k + i)) by lia. rewrite <- Heq.
        apply list_elem_of_here.
      * apply synthesized_inj in Heq. lia.
  - apply IH.
    + simpl in Hnd. destruct (ConstructingBlock.label b); [|done].
      by apply NoDup_cons in Hnd as [_ ?].
    + intros i b' Hb' Hn' Hin.
      apply (Hsyn (S i) b' Hb' Hn').
      replace (k + S i) with (S k + i) by lia. simpl.
      destruct (ConstructingBlock.label b); [|done].
      by apply list_elem_of_further.
Qed.

(** C6, as amended.  On every stream on which [extractBlocks] returns,
    finished block [i] is labelled with the declared name of its
    constructing block when that block was opened by a label line, and
    with the synthesized name for [i] otherwise; the declared names of the
    stream are exactly the labels of the labelled finished blocks.  The
    labels are pairwise distinct provided no name is declared twice and no
    declared name is the synthesized name of an unlabelled block. *)
Theorem finished_labels (input : list string) (bs : list Block.t) :
  extractBlocks input = Return bs →
  Block.label <$> bs =
    imap finishedLabel (survivors (allBlocks (build input))) ∧
  omap ConstructingBlock.label (survivors (allBlocks (build input))) =
    declared input ∧
  (NoDup (declared input) →
   (∀ i block,
      survivors (allBlocks (build input)) !! i = Some block →
      ConstructingBlock.label block = None →
      synthesized i ∉ declared input) →
   NoDup (Block.label <$> bs)).
Proof.
  intros Hret.
  pose proof (survivors_blockOK _ (build_blockOK input)) as Hok.
  assert (Hdecl : omap ConstructingBlock.label (survivors (allBlocks (build input)))
                  = declared input).
  { rewrite survivors_labels by apply build_blockOK. apply build_block_labels. }
  assert (Hlabels : Block.label <$> bs =
                    imap finishedLabel (survivors (allBlocks (build input)))).
  { apply extractBlocks_Return in Hret as [-> _].
    apply list_eq. intros i. rewrite list_lookup_fmap, !list_lookup_imap.
    destruct (survivors (allBlocks (build input)) !! i) as [block|] eqn:Hi; [|done].
    simpl. rewrite finished_label. f_equal. apply newBlock_finishedLabel.
    eapply (proj1 (Forall_lookup _ _) Hok), Hi. }
  split; [done|]. split; [done|].
  intros Hnd Hsyn. rewrite Hlabels.
  apply (finishedLabel_NoDup _ 0); rewrite Hdecl; done.
Qed.

Lemma finished_labels_witness :
  NoDup (Block.label <$>
           [Block.mk ["b l0"] "b0" false None (Some 1%nat);
            Block.mk ["l0:"; "return"] "l0" false None None]).
Proof.
  apply (proj2 (proj2 (finished_labels ["b l0"; "l0:"; "return"] _ scenario_B))).
  - vm_compute. apply NoDup_singleton.
  - intros i block Hi Hn. vm_compute in Hi.
    destruct i as [|[|i]]; simpl in Hi; [| |discriminate].
    + vm_compute. intros H. inversion H; subst. inversion H2.
    + injection Hi as <-. discriminate.
Defined.

(** Two streams whose finished blocks share a label: the declared name
    [b0] is also the synthesized name of the first block, and the name
    [l0] is declared twice. *)
Lemma finished_labels_collide :
  extractBlocks ["int 1"; "b0:"] =
    Return [Block.mk ["int 1"] "b0" false (Some 1%nat) None;
            Block.mk ["b0:"] "b0" false None None] ∧
  extractBlocks ["l0:"; "l0:"] =
    Return [Block.mk ["l0:"] "l0" false (Some 1%nat) None;
            Block.mk ["l0:"] "l0" false None None] ∧
  ¬ NoDup ["b0"; "b0"] ∧ ¬ NoDup ["l0"; "l0"].
Proof.
  split; [vm_compute; reflexivity|]. split; [vm_compute; reflexivity|].
  split; intros [Hnot _]%NoDup_cons; apply Hnot, list_elem_of_here.
Qed.

(** ** Repeated declarations *)

Lemma step_labels_keep st line name :
  declaredName line ≠ Some name →
  labels (step st line) !! name = labels st !! name.
Proof.
  intros Hne. step_cases st line; simpl; try done.
  apply lookup_insert_ne. congruence.
Qed.

(** Lines that do not declare [name] leave its table entry alone. *)
Lemma foldl_labels_keep post : ∀ st name,
  name ∉ declared post →
  labels (foldl step st post) !! name = labels st !! name.
Proof.
  induction post as [|line post IH]; intros st name Hnot; [done|].
  simpl. unfold declared in Hnot. rewrite omap_cons_app in Hnot.
  rewrite IH.
  - apply step_labels_keep. intros Hd. apply Hnot. rewrite Hd.
    apply list_elem_of_here.
  - intros Hin. apply Hnot. apply elem_of_app. by right.
Qed.

(** When [line] is the last declaration of [name] in the stream, the
    label table holds for [name] the constructing block which that line
    opened, whatever earlier lines declared.  If [extractBlocks] throws,
    it is for a name declared nowhere, so never on account of the
    repetition.  If it returns, the finished block of that constructing
    block carries the label [name], and a branch successor of a block
    whose target is [name] is that finished block; every such block but
    the last of the list has the successor. *)
Lemma last_declaration_wins (pre : list string) (line : string)
    (post : list string) (name : string) :
  declaredName line = Some name → name ∉ declared post →
  let input := pre ++ line :: post in
  let a := length (blocks (build (pre ++ [line]))) in
  curBlock (build (pre ++ [line])) =
    ConstructingBlock.mk [line] (Some name) false None false ∧
  labels (build input) !! name = Some a ∧
  ∃ opener d,
    allBlocks (build input) !! a = Some opener ∧
    grows (curBlock (build (pre ++ [line]))) opener ∧
    realBlock (allBlocks (build input)) a = Some d ∧
    (∀ message,
       extractBlocks input = Throw message →
       ∃ target, message = notFound target ∧ (target ∉ declared input)) ∧
    ∀ bs,
      extractBlocks input = Return bs →
      (∃ succ, bs !! d = Some succ ∧ Block.label succ = name ∧
               Block.contents succ = ConstructingBlock.body opener) ∧
      ∀ i block b,
        survivors (allBlocks (build input)) !! i = Some block →
        ConstructingBlock.branch block = Some name →
        bs !! i = Some b →
        (S i < length bs → Block.branch b = Some d) ∧
        (∀ d', Block.branch b = Some d' → d' = d).
Proof.
  intros Hd Hnot input a.
  pose proof (declaredName_isLabel line name) as [Hdl _].
  destruct (Hdl Hd) as [_ Htruthy]. clear Hdl.
  assert (Hstep : build (pre ++ [line]) =
    mkBuilder (blocks (build pre) ++
                 [ConstructingBlock.set_flow true (curBlock (build pre))])
              (<[name := S (length (blocks (build pre)))]> (labels (build pre)))
              (ConstructingBlock.mk [line] (Some name) false None false)).
  { rewrite build_snoc. by apply step_label. }
  assert (Ha : a = S (length (blocks (build pre)))).
  { unfold a. rewrite Hstep. simpl. rewrite length_app. simpl. lia. }
  assert (Hinput : build input = foldl step (build (pre ++ [line])) post).
  { unfold input. rewrite <- build_app, <- app_assoc. reflexivity. }
  assert (Hlab : labels (build input) !! name = Some a).
  { rewrite Hinput, foldl_labels_keep by done. rewrite Hstep. simpl.
    rewrite Ha. apply lookup_insert_eq. }
  assert (Hcur : allBlocks (build (pre ++ [line])) !! a =
                 Some (curBlock (build (pre ++ [line])))).
  { unfold allBlocks, a. rewrite lookup_app_r by lia. by rewrite Nat.sub_diag. }
  destruct (foldl_step_grows _ post _ _ Hcur) as (opener & Hopener & Hgrows).
  rewrite <- Hinput in Hopener.
  assert (Hne : ConstructingBlock.nonEmpty opener).
  { eapply nonEmpty_grows; [exact Hgrows|]. rewrite Hstep. done. }
  set (d := length (survivors (take a (allBlocks (build input))))).
  assert (Hreal : realBlock (allBlocks (build input)) a = Some d).
  { apply realBlock_Some. by exists opener. }
  assert (Hresolve : labels (build input) !! name ≫=
                     realBlock (allBlocks (build input)) = Some d).
  { rewrite Hlab. exact Hreal. }
  split; [by rewrite Hstep|]. split; [done|].
  exists opener, d. split; [done|]. split; [done|]. split; [done|]. split.
  - intros message Hthrow.
    destruct (extractBlocks_Throw _ _ Hthrow) as (j & b & t & -> & _ & _ & Hu & _).
    apply unresolved_Some in Hu as (_ & _ & ?). by exists t.
  - intros bs Hret. split.
    + destruct (realBlock_survivor _ _ _ Hreal) as (opener' & Ho' & Hs).
      assert (opener' = opener) as -> by congruence.
      pose proof (extractBlocks_Return _ _ Hret) as [Hbs _].
      eexists. split; [|split].
      * rewrite Hbs at 1. rewrite list_lookup_imap, Hs. reflexivity.
      * rewrite finished_label. apply newBlock_label_declared; [|done].
        destruct Hgrows as (-> & _). by rewrite Hstep.
      * apply finished_contents.
    + intros i block b Hs Hbr Hb.
      destruct (extractBlocks_lookup _ _ _ _ Hret Hb) as (block' & Hs' & ->).
      assert (block' = block) as -> by congruence.
      rewrite finished_branch, Hbr, Htruthy, Hresolve.
      rewrite <- (extractBlocks_length _ _ Hret).
      destruct (decide (S i < length bs)); split; (done || congruence).
Qed.

Example last_declaration_wins_table :
  labels (build (["l:"; "int 1"] ++ "l:" :: ["bnz l"; "int 2"])) !! "l" =
    Some 2%nat.
Proof.
  refine (proj1 (proj2 (last_declaration_wins ["l:"; "int 1"] "l:"
                          ["bnz l"; "int 2"] "l" eq_refl _))).
  vm_compute. intros H. inversion H.
Qed.

Example repeated_label_graph :
  extractBlocks ["l:"; "int 1"; "l:"; "bnz l"; "int 2"] =
  Return [Block.mk ["l:"; "int 1"] "l" false (Some 1%nat) None;
          Block.mk ["l:"; "bnz l"] "l" false (Some 2%nat) (Some 1%nat);
          Block.mk ["int 2"] "b2" true None None].
Proof. vm_compute. reflexivity. Qed.

(** The link loop stops one block short: the last finished block never
    has a branch successor, whatever target its constructing block
    carries. *)
Lemma last_block_unlinked input bs b :
  extractBlocks input = Return bs → last bs = Some b →
  Block.branch b = None.
Proof.
  intros Hret Hb. pose proof (extractBlocks_length _ _ Hret) as Hlen.
  rewrite last_lookup in Hb.
  destruct (extractBlocks_lookup _ _ _ _ Hret Hb) as (block & Hs & ->).
  rewrite finished_branch. rewrite decide_False; [done|]. lia.
Qed.

(** C8, on the code.  In this stream [l] is declared twice and the last
    line branches to it.  The table holds the second declaration and
    nothing is thrown, but the branch of the last block is not resolved:
    the finished block has no branch successor. *)
Theorem repeated_label_last_branch_unlinked :
  labels (build ["l:"; "int 1"; "l:"; "int 2"; "b l"]) !! "l" = Some 2%nat ∧
  survivors (allBlocks (build ["l:"; "int 1"; "l:"; "int 2"; "b l"])) !! 1%nat =
    Some (ConstructingBlock.mk ["l:"; "int 2"; "b l"] (Some "l") false
                               (Some "l") false) ∧
  extractBlocks ["l:"; "int 1"; "l:"; "int 2"; "b l"] =
    Return [Block.mk ["l:"; "int 1"] "l" false (Some 1%nat) None;
            Block.mk ["l:"; "int 2"; "b l"] "l" false None None].
Proof. repeat split; vm_compute; reflexivity. Qed.

(** ** The structure of the blocks the builder produces *)

Lemma plain_declaredName line : plain line → declaredName line = None.
Proof. intros (Hl & _). by apply isLabel_declaredName. Qed.

Lemma openBody_snoc lab body line :
  openBody lab body → plain line → openBody lab (body ++ [line]).
Proof.
  destruct lab as [name|]; simpl.
  - intros (l0 & rest & -> & Hd & Hrest) Hp. exists l0, (rest ++ [line]).
    split; [done|]. split; [done|]. apply Forall_app. split; [done|].
    by apply Forall_singleton.
  - intros Hb Hp. apply Forall_app. split; [done|]. by apply Forall_singleton.
Qed.

Lemma follows_same b c c' :
  ConstructingBlock.label c' = ConstructingBlock.label c →
  ConstructingBlock.dead c' = ConstructingBlock.dead c →
  follows b c → follows b c'.
Proof. unfold follows. intros -> ->. done. Qed.

Lemma chained_replace_last l c c' :
  ConstructingBlock.label c' = ConstructingBlock.label c →
  ConstructingBlock.dead c' = ConstructingBlock.dead c →
  chained (l ++ [c]) → chained (l ++ [c']).
Proof.
  intros Hl Hd. induction l as [|x l IH]; simpl; [done|].
  destruct l as [|y l]; simpl in *.
  - intros [Hf _]. split; [|done]. by eapply follows_same.
  - intros [Hf Hrest]. split; [done|]. by apply IH.
Qed.

Lemma chained_snoc l c n :
  chained (l ++ [c]) → follows c n → chained (l ++ [c; n]).
Proof.
  intros Hc Hf. induction l as [|x l IH]; simpl in *; [done|].
  destruct l as [|y l]; simpl in *.
  - destruct Hc as [Hxc _]. done.
  - destruct Hc as [Hxy Hrest]. split; [done|]. by apply IH.
Qed.

Lemma chained_lookup l a b b' :
  chained l → l !! a = Some b → l !! S a = Some b' → follows b b'.
Proof.
  revert a. induction l as [|x l IH]; intros a Hc Ha Hb; [done|].
  destruct a as [|a]; simpl in *.
  - injection Ha as ->. destruct l as [|y l]; [done|].
    simpl in Hb. injection Hb as ->. by destruct Hc.
  - destruct Hc as [_ Hc]. by apply (IH a).
Qed.

Lemma step_structured st line : structured st → structured (step st line).
Proof.
  intros (Hclosed & Hopen & [Hflow Hbranch] & Hchain & entry & Hentry & Hel & Hed).
  assert (Hentry' : ∃ entry', allBlocks (step st line) !! 0%nat = Some entry' ∧
            ConstructingBlock.label entry' = None ∧
            ConstructingBlock.dead entry' = false).
  { destruct (step_grows st line 0 entry Hentry) as (e' & He' & Hl & Hd & _).
    exists e'. split; [done|]. split; congruence. }
  unfold structured, allBlocks in *.
  step_cases st line; simpl; (split; [|split; [|split; [done|split; [|done]]]]).
  - apply Forall_app. split; [done|]. apply Forall_singleton.
    unfold closedShape. simpl. by rewrite Hbranch.
  - exists line, []. done.
  - replace ((blocks st ++ [ConstructingBlock.set_flow true (curBlock st)]) ++
             [ConstructingBlock.mk [line] (Some name) false None false])
      with (blocks st ++ [ConstructingBlock.set_flow true (curBlock st);
                          ConstructingBlock.mk [line] (Some name) false None false])
      by (by rewrite <- app_assoc).
    apply chained_snoc.
    + by apply (chained_replace_last _ (curBlock st)).
    + unfold follows. simpl. rewrite Hbranch. split; [by eexists|done].
  - apply Forall_app. split; [done|]. apply Forall_singleton.
    unfold closedShape. simpl.
    exists (ConstructingBlock.body (curBlock st)), line, mnemonic.
    split; [done|]. split; [done|]. split; [by apply isLabel_declaredName|done].
  - simpl. constructor.
  - rewrite <- app_assoc. simpl. apply chained_snoc.
    + by apply (chained_replace_last _ (curBlock st)).
    + unfold follows. simpl. done.
  - apply Forall_app. split; [done|]. apply Forall_singleton.
    unfold closedShape. simpl. rewrite Hbranch, Hflow.
    exists (ConstructingBlock.body (curBlock st)), line.
    split; [done|]. split; [done|]. split; [by apply isLabel_declaredName|].
    unfold isBranch. by rewrite Hbranch0.
  - simpl. constructor.
  - rewrite <- app_assoc. simpl. apply chained_snoc.
    + by apply (chained_replace_last _ (curBlock st)).
    + unfold follows. simpl. rewrite Hbranch, Hflow. done.
  - done.
  - simpl. apply openBody_snoc; [done|].
    split; [by apply isLabel_declaredName|]. split; [|done].
    unfold isBranch. by rewrite Hbranch0.
  - by apply (chained_replace_last _ (curBlock st)).
Qed.

Lemma build_structured input : structured (build input).
Proof.
  apply (foldl_step_invariant structured).
  - apply step_structured.
  - split; [constructor|]. split; [constructor|]. split; [done|].
    split; [simpl; done|]. eexists. done.
Qed.

(** *** Every line goes to one block *)

Lemma step_bodies st line :
  concat (ConstructingBlock.body <$> allBlocks (step st line)) =
  concat (ConstructingBlock.body <$> allBlocks st) ++ [line].
Proof.
  unfold allBlocks.
  step_cases st line; simpl; rewrite !fmap_app, !concat_app; simpl;
    rewrite ?app_nil_r, <- ?app_assoc; reflexivity.
Qed.

Lemma build_bodies input :
  concat (ConstructingBlock.body <$> allBlocks (build input)) = input.
Proof.
  induction input as [|line pre IH] using rev_ind; [reflexivity|].
  by rewrite build_snoc, step_bodies, IH.
Qed.

Lemma survivors_bodies all :
  concat (ConstructingBlock.body <$> survivors all) =
  concat (ConstructingBlock.body <$> all).
Proof.
  unfold survivors. induction all as [|b all IH]; [done|].
  destruct (decide (ConstructingBlock.nonEmpty b)) as [Hne|Hempty].
  - rewrite filter_cons_True by done. rewrite !fmap_cons. cbn [concat].
    by rewrite IH.
  - rewrite filter_cons_False by done. rewrite fmap_cons. cbn [concat].
    rewrite IH. unfold ConstructingBlock.nonEmpty in Hempty.
    destruct (ConstructingBlock.body b); [done|]. by destruct Hempty.
Qed.

Lemma extractBlocks_contents input bs :
  extractBlocks input = Return bs →
  Block.contents <$> bs =
  ConstructingBlock.body <$> survivors (allBlocks (build input)).
Proof.
  intros [-> _]%extractBlocks_Return.
  apply list_eq. intros i. rewrite !list_lookup_fmap, list_lookup_imap.
  destruct (survivors (allBlocks (build input)) !! i) as [block|]; [|done].
  simpl. by rewrite finished_contents.
Qed.

(** X1.  The finished blocks cut the stream into consecutive pieces: their
    bodies, one after the other, are the input lines, each exactly once and
    in order. *)
Theorem finished_blocks_partition_input (input : list string)
    (bs : list Block.t) :
  extractBlocks input = Return bs →
  concat (Block.contents <$> bs) = input.
Proof.
  intros Hret. rewrite (extractBlocks_contents _ _ Hret).
  rewrite survivors_bodies. apply build_bodies.
Qed.

Lemma finished_blocks_partition_input_witness :
  concat (Block.contents <$>
            [Block.mk ["bnz l1"] "b0" false (Some 1%nat) (Some 2%nat);
             Block.mk ["int 1"] "b1" true (Some 2%nat) None;
             Block.mk ["l1:"; "err"] "l1" false None None]) =
  ["bnz l1"; "int 1"; "l1:"; "err"].
Proof.
  exact (finished_blocks_partition_input _ _ scenario_C).
Defined.

(** X2.  [extractBlocks] returns the empty list of blocks exactly on the
    empty stream. *)
Theorem empty_graph_iff_empty_input (input : list string) :
  extractBlocks input = Return [] ↔ input = [].
Proof.
  split.
  - intros Hret. pose proof (extractBlocks_contents _ _ Hret) as Hc.
    pose proof (build_bodies input) as Hb.
    rewrite <- survivors_bodies, <- Hc in Hb. done.
  - intros ->. reflexivity.
Qed.

(** *** Surviving blocks and addresses *)

Lemma survivors_address all : ∀ i b,
  survivors all !! i = Some b →
  ∃ a, all !! a = Some b ∧ ConstructingBlock.nonEmpty b ∧
       i = length (survivors (take a all)).
Proof.
  unfold survivors. induction all as [|x all IH]; intros i b Hi; [done|].
  destruct (decide (ConstructingBlock.nonEmpty x)) as [Hne|Hempty].
  - rewrite filter_cons_True in Hi by done. destruct i as [|i].
    + injection Hi as <-. exists 0. done.
    + destruct (IH i b Hi) as (a & Ha & Hb & ->). exists (S a).
      split; [done|]. split; [done|]. simpl.
      by rewrite filter_cons_True.
  - rewrite filter_cons_False in Hi by done.
    destruct (IH i b Hi) as (a & Ha & Hb & ->). exists (S a).
    split; [done|]. split; [done|]. simpl. by rewrite filter_cons_False.
Qed.

Lemma survivors_take_S all a b :
  all !! a = Some b →
  survivors (take (S a) all) =
  survivors (take a all) ++ (if decide (ConstructingBlock.nonEmpty b) then [b] else []).
Proof.
  intros Ha. rewrite (take_S_r _ _ _ Ha). unfold survivors.
  rewrite filter_app. reflexivity.
Qed.

(** The survivor that follows a surviving block whose successor in
    creation order is not empty is that successor. *)
Lemma survivors_next all a b b' :
  all !! a = Some b → ConstructingBlock.nonEmpty b →
  all !! S a = Some b' → ConstructingBlock.nonEmpty b' →
  survivors all !! S (length (survivors (take a all))) = Some b'.
Proof.
  intros Ha Hne Ha' Hne'.
  destruct (realBlock_survivor all (S a) (length (survivors (take (S a) all))))
    as (x & Hx & Hs).
  { apply realBlock_Some. by exists b'. }
  assert (x = b') as -> by congruence.
  rewrite (survivors_take_S _ _ _ Ha), decide_True, length_app in Hs by done.
  simpl in Hs. by rewrite Nat.add_1_r in Hs.
Qed.

(** *** Shapes of the blocks of a finished build *)

Lemma block_shape input a b :
  allBlocks (build input) !! a = Some b →
  (closedShape b ∧ S a < length (allBlocks (build input))) ∨
  (openBody (ConstructingBlock.label b) (ConstructingBlock.body b) ∧
   openBlock b ∧ S a = length (allBlocks (build input))).
Proof.
  destruct (build_structured input) as (Hclosed & Hopen & Hflags & _).
  unfold allBlocks. intros Ha.
  destruct (decide (a < length (blocks (build input)))) as [Hlt|Hge].
  - left. rewrite lookup_app_l in Ha by done. split.
    + eapply (proj1 (Forall_lookup _ _) Hclosed), Ha.
    + rewrite length_app. simpl. lia.
  - right. rewrite lookup_app_r in Ha by lia.
    destruct (a - length (blocks (build input))) as [|k] eqn:E; [|done].
    simpl in Ha. injection Ha as <-. split; [done|]. split; [done|].
    rewrite length_app. simpl. lia.
Qed.

Lemma plain_not_closer line :
  plain line → isLabel line = false → isBranch line = false ∧ isTerminator line = false.
Proof. intros (_ & ? & ?) _. done. Qed.

(** In an open body no line after the first declares a label and no line
    closes a block. *)
Lemma openBody_lines lab body :
  openBody lab body →
  (∀ first rest, body = first :: rest → Forall (λ l, isLabel l = false) rest) ∧
  Forall (λ l, isLabel l = false → isBranch l = false ∧ isTerminator l = false) body ∧
  match lab with
  | Some name => ∃ first rest, body = first :: rest ∧ declaredName first = Some name
  | None => ∀ first rest, body = first :: rest → declaredName first = None
  end.
Proof.
  destruct lab as [name|]; simpl.
  - intros (line & rest & -> & Hd & Hrest). split; [|split].
    + intros first rest' [= <- <-]. eapply Forall_impl; [exact Hrest|].
      by intros l (? & _).
    + constructor.
      * intros Hl. apply isLabel_declaredName in Hl. congruence.
      * eapply Forall_impl; [exact Hrest|]. intros l Hp. by apply plain_not_closer.
    + by exists line, rest.
  - intros Hb. split; [|split].
    + intros first rest ->. apply Forall_cons in Hb as [_ Hrest].
      eapply Forall_impl; [exact Hrest|]. by intros l (? & _).
    + eapply Forall_impl; [exact Hb|]. intros l Hp. by apply plain_not_closer.
    + intros first rest ->. apply Forall_cons in Hb as [Hp _].
      by apply plain_declaredName.
Qed.

(** The same facts for the front of a body that ends in a closing line. *)
Lemma closedBody_lines lab front line :
  openBody lab front → isLabel line = false →
  (∀ first rest, front ++ [line] = first :: rest →
                 Forall (λ l, isLabel l = false) rest) ∧
  match lab with
  | Some name =>
      ∃ first rest, front ++ [line] = first :: rest ∧ declaredName first = Some name
  | None =>
      ∀ first rest, front ++ [line] = first :: rest → declaredName first = None
  end.
Proof.
  intros Hopen Hl. destruct (openBody_lines _ _ Hopen) as (Hrest & _ & Hhead).
  split.
  - intros first rest Heq. destruct front as [|f front]; simpl in Heq.
    + injection Heq as <- <-. constructor.
    + injection Heq as <- <-. apply Forall_app. split; [by eapply Hrest|].
      by apply Forall_singleton.
  - destruct lab as [name|].
    + destruct Hhead as (first & rest & -> & Hd). by exists first, (rest ++ [line]).
    + intros first rest Heq. destruct front as [|f front]; simpl in Heq.
      * injection Heq as <- <-. by apply isLabel_declaredName.
      * injection Heq as <- <-. by eapply Hhead.
Qed.

(** What every block of a build looks like, whichever way it ended. *)
Lemma block_lines input a b :
  allBlocks (build input) !! a = Some b →
  (∀ first rest, ConstructingBlock.body b = first :: rest →
                 Forall (λ l, isLabel l = false) rest) ∧
  (∀ front last, ConstructingBlock.body b = front ++ [last] →
     Forall (λ l, isLabel l = false → isBranch l = false ∧ isTerminator l = false)
            front) ∧
  match ConstructingBlock.label b with
  | Some name =>
      ∃ first rest, ConstructingBlock.body b = first :: rest ∧
                    declaredName first = Some name
  | None =>
      ∀ first rest, ConstructingBlock.body b = first :: rest →
                    declaredName first = None
  end.
Proof.
  intros Ha.
  assert (Hfront : ∀ body, openBody (ConstructingBlock.label b) body →
    ∀ front last, body = front ++ [last] →
      Forall (λ l, isLabel l = false → isBranch l = false ∧ isTerminator l = false)
             front).
  { intros body Ho front last ->.
    destruct (openBody_lines _ _ Ho) as (_ & Hall & _).
    by apply Forall_app in Hall as [? _]. }
  assert (Hfront' : ∀ front0 line, openBody (ConstructingBlock.label b) front0 →
    ∀ front last, front0 ++ [line] = front ++ [last] →
      Forall (λ l, isLabel l = false → isBranch l = false ∧ isTerminator l = false)
             front).
  { intros front0 line Ho front last [<- _]%app_inj_tail.
    by destruct (openBody_lines _ _ Ho) as (_ & Hall & _). }
  destruct (block_shape _ _ _ Ha) as [[Hc _] | (Ho & _ & _)].
  - unfold closedShape in Hc.
    destruct (ConstructingBlock.branch b) as [t|].
    + destruct Hc as (front & line & m & Hb & Ho & Hl & _).
      destruct (closedBody_lines _ _ line Ho Hl) as [H1 H2].
      rewrite Hb. split; [done|]. split; [by apply Hfront'|done].
    + destruct (ConstructingBlock.flow b).
      * destruct (openBody_lines _ _ Hc) as (H1 & _ & H3).
        split; [done|]. split; [by apply Hfront|done].
      * destruct Hc as (front & line & Hb & Ho & Hl & _).
        destruct (closedBody_lines _ _ line Ho Hl) as [H1 H2].
        rewrite Hb. split; [done|]. split; [by apply Hfront'|done].
  - destruct (openBody_lines _ _ Ho) as (H1 & _ & H3).
    split; [done|]. split; [by apply Hfront|done].
Qed.

(** How the last line of a body decides the two exit fields. *)
Lemma closing_line_flags input a b front line :
  allBlocks (build input) !! a = Some b →
  ConstructingBlock.body b = front ++ [line] → isLabel line = false →
  match getBranchMaybe line with
  | Some (mnemonic, target) =>
      ConstructingBlock.branch b = Some target ∧
      ConstructingBlock.flow b = negb (String.eqb mnemonic "b")
  | None =>
      isTerminator line = true →
      ConstructingBlock.flow b = false ∧ ConstructingBlock.branch b = None
  end.
Proof.
  intros Ha Hbody Hl.
  assert (Hopen : openBody (ConstructingBlock.label b) (ConstructingBlock.body b) →
                  isBranch line = false ∧ isTerminator line = false).
  { intros Ho. destruct (openBody_lines _ _ Ho) as (_ & Hall & _).
    rewrite Hbody in Hall. apply Forall_app in Hall as [_ Hlast].
    rewrite Forall_singleton in Hlast. by apply Hlast. }
  assert (Hcontra : openBody (ConstructingBlock.label b) (ConstructingBlock.body b) →
    match getBranchMaybe line with
    | Some (mnemonic, target) =>
        ConstructingBlock.branch b = Some target ∧
        ConstructingBlock.flow b = negb (String.eqb mnemonic "b")
    | None =>
        isTerminator line = true →
        ConstructingBlock.flow b = false ∧ ConstructingBlock.branch b = None
    end).
  { intros Ho. destruct (Hopen Ho) as [Hnb Hnt]. unfold isBranch in Hnb.
    destruct (getBranchMaybe line) as [[m t]|]; [done|]. congruence. }
  destruct (block_shape _ _ _ Ha) as [[Hc _] | (Ho & _ & _)]; [|by apply Hcontra].
  unfold closedShape in Hc.
  destruct (ConstructingBlock.branch b) as [t|] eqn:Hbr.
  - destruct Hc as (front' & line' & m & Hb' & _ & _ & Hg & Hf).
    rewrite Hbody in Hb'. apply app_inj_tail in Hb' as [_ <-].
    rewrite Hg. done.
  - destruct (ConstructingBlock.flow b) eqn:Hfl; [by apply Hcontra|].
    destruct Hc as (front' & line' & Hb' & _ & _ & Hnb & _).
    rewrite Hbody in Hb'. apply app_inj_tail in Hb' as [_ <-].
    unfold isBranch in Hnb. destruct (getBranchMaybe line) as [[m t]|]; done.
Qed.

Lemma branch_field_origin input a b target :
  allBlocks (build input) !! a = Some b →
  ConstructingBlock.branch b = Some target →
  ∃ front line mnemonic,
    ConstructingBlock.body b = front ++ [line] ∧ isLabel line = false ∧
    getBranchMaybe line = Some (mnemonic, target) ∧
    ConstructingBlock.flow b = negb (String.eqb mnemonic "b").
Proof.
  intros Ha Hbr.
  destruct (block_shape _ _ _ Ha) as [[Hc _] | (_ & [_ Hnone] & _)]; [|congruence].
  unfold closedShape in Hc. rewrite Hbr in Hc.
  destruct Hc as (front & line & m & ? & _ & ? & ? & ?). by exists front, line, m.
Qed.

Lemma labelled_not_dead input a b :
  allBlocks (build input) !! a = Some b →
  is_Some (ConstructingBlock.label b) → ConstructingBlock.dead b = false.
Proof.
  destruct (build_structured input) as (_ & _ & _ & Hchain & entry & He & Hel & Hed).
  intros Ha [name Hname]. destruct a as [|a]; [congruence|].
  destruct (lookup_lt_is_Some_2 (allBlocks (build input)) a) as [prev Hprev].
  { apply lookup_lt_Some in Ha. lia. }
  pose proof (chained_lookup _ _ _ _ Hchain Hprev Ha) as Hf.
  unfold follows in Hf.
  destruct (ConstructingBlock.branch prev); [destruct Hf; congruence|].
  destruct (ConstructingBlock.flow prev); destruct Hf; congruence.
Qed.

(** An empty block that is not the last one created was closed by a label
    line, so the block created after it is labelled. *)
Lemma empty_block_followed_by_label input a b b' :
  allBlocks (build input) !! a = Some b → ¬ ConstructingBlock.nonEmpty b →
  allBlocks (build input) !! S a = Some b' →
  is_Some (ConstructingBlock.label b') ∧ ConstructingBlock.nonEmpty b'.
Proof.
  destruct (build_structured input) as (_ & _ & _ & Hchain & _).
  intros Ha Hempty Ha'.
  assert (Hbody : ConstructingBlock.body b = []).
  { unfold ConstructingBlock.nonEmpty in Hempty.
    destruct (ConstructingBlock.body b); [done|]. by destruct Hempty. }
  pose proof (chained_lookup _ _ _ _ Hchain Ha Ha') as Hf.
  destruct (block_shape _ _ _ Ha) as [[Hc _] | (_ & _ & Hlen)].
  - unfold closedShape in Hc. unfold follows in Hf.
    destruct (ConstructingBlock.branch b).
    { destruct Hc as (front & line & m & Hb & _). rewrite Hbody in Hb.
      by destruct front. }
    destruct (ConstructingBlock.flow b).
    + destruct Hf as [[name Hname] _]. split; [by exists name|].
      pose proof (build_blockOK input) as Hok.
      apply (proj1 (Forall_lookup _ _) Hok _ _) in Ha' as [Hlab _].
      destruct (Hlab name Hname) as [_ Ho]. by eapply opensWith_nonEmpty.
    + destruct Hc as (front & line & Hb & _). rewrite Hbody in Hb.
      by destruct front.
  - apply lookup_lt_Some in Ha'. lia.
Qed.

(** ** The finished graph, block by block *)

Lemma finished_origin input bs i b :
  extractBlocks input = Return bs → bs !! i = Some b →
  ∃ a block,
    allBlocks (build input) !! a = Some block ∧
    ConstructingBlock.nonEmpty block ∧
    i = length (survivors (take a (allBlocks (build input)))) ∧
    survivors (allBlocks (build input)) !! i = Some block ∧
    b = finished (labels (build input)) (allBlocks (build input))
                 (length (survivors (allBlocks (build input)))) i block.
Proof.
  intros Hret Hb.
  destruct (extractBlocks_lookup _ _ _ _ Hret Hb) as (block & Hs & ->).
  destruct (survivors_address _ _ _ Hs) as (a & Ha & Hne & Hi).
  by exists a, block.
Qed.

(** X3.  A label line occurs in a finished block only as its first line.
    The block's label is the name that first line declares, or the
    synthesized name of the block's position when the first line declares
    none. *)
Theorem label_lines_open_blocks (input : list string) (bs : list Block.t)
    (i : nat) (b : Block.t) :
  extractBlocks input = Return bs → bs !! i = Some b →
  ∃ first rest,
    Block.contents b = first :: rest ∧
    Forall (λ l, isLabel l = false) rest ∧
    Block.label b = default (synthesized i) (declaredName first).
Proof.
  intros Hret Hb.
  destruct (finished_origin _ _ _ _ Hret Hb) as (a & block & Ha & Hne & _ & Hs & ->).
  destruct (block_lines _ _ _ Ha) as (Hrest & _ & Hhead).
  rewrite finished_contents, finished_label.
  destruct (ConstructingBlock.body block) as [|first rest] eqn:Hbody; [done|].
  exists first, rest. split; [done|]. split; [by eapply Hrest|].
  destruct (ConstructingBlock.label block) as [name|] eqn:Hlab.
  - destruct Hhead as (f & r & [= <- <-] & Hd). rewrite Hd. simpl.
    apply newBlock_label_declared; [done|].
    by apply declaredName_isLabel in Hd as [_ ?].
  - rewrite (Hhead first rest eq_refl). simpl.
    by apply newBlock_label_synthesized.
Qed.

Lemma label_lines_open_blocks_witness :
  ∃ first rest,
    ["l0:"; "return"] = first :: rest ∧
    Forall (λ l, isLabel l = false) rest ∧
    "l0" = default (synthesized 1) (declaredName first).
Proof.
  exact (label_lines_open_blocks ["b l0"; "l0:"; "return"] _ 1 _
           scenario_B eq_refl).
Defined.

(** X4.  In a finished block only the last line can close a block: every
    earlier line that is not the opening label line is neither a branch
    nor a terminator. *)
Theorem closing_lines_end_blocks (input : list string) (bs : list Block.t)
    (i : nat) (b : Block.t) (front : list string) (last : string) :
  extractBlocks input = Return bs → bs !! i = Some b →
  Block.contents b = front ++ [last] →
  Forall (λ l, isLabel l = false → isBranch l = false ∧ isTerminator l = false)
         front.
Proof.
  intros Hret Hb Hc.
  destruct (finished_origin _ _ _ _ Hret Hb) as (a & block & Ha & _ & _ & _ & ->).
  rewrite finished_contents in Hc.
  destruct (block_lines _ _ _ Ha) as (_ & Hfront & _). by eapply Hfront.
Qed.

Lemma closing_lines_end_blocks_witness :
  Forall (λ l, isLabel l = false → isBranch l = false ∧ isTerminator l = false)
         ["l0:"].
Proof.
  exact (closing_lines_end_blocks ["b l0"; "l0:"; "return"] _ 1 _
           ["l0:"] "return" scenario_B eq_refl eq_refl).
Defined.

Lemma branch_edge_origin (input : list string) (bs : list Block.t)
    (i : nat) (b : Block.t) (d : nat) :
  extractBlocks input = Return bs → bs !! i = Some b →
  Block.branch b = Some d →
  ∃ front line mnemonic target succ,
    Block.contents b = front ++ [line] ∧ isLabel line = false ∧
    getBranchMaybe line = Some (mnemonic, target) ∧
    bs !! d = Some succ ∧ Block.label succ = target.
Proof.
  intros Hret Hb Hbr.
  destruct (finished_origin _ _ _ _ Hret Hb) as (a & block & Ha & _ & _ & _ & ->).
  rewrite finished_branch in Hbr.
  destruct (decide (S i < _)); [|done].
  destruct (ConstructingBlock.branch block) as [target|] eqn:Hbranch; [|done].
  destruct (JS.truthy target) eqn:Ht; [|done].
  destruct (branch_field_origin _ _ _ _ Ha Hbranch) as (front & line & m & Hbody & Hl & Hg & _).
  destruct (resolve_Some _ _ _ Hbr) as (a' & opener & _ & _ & [Hlab _] & _ & Hd).
  pose proof (extractBlocks_Return _ _ Hret) as [Hbs _].
  exists front, line, m, target,
    (finished (labels (build input)) (allBlocks (build input))
              (length (survivors (allBlocks (build input)))) d opener).
  rewrite finished_contents. split; [done|]. split; [done|]. split; [done|].
  split.
  - rewrite Hbs at 1. by rewrite list_lookup_imap, Hd.
  - rewrite finished_label. by apply newBlock_label_declared.
Qed.

(** X5.  A branch successor comes from a branch instruction: the block
    ends in a branch line, and the label of the successor is the target
    written on that line. *)
Theorem branch_edge_from_branch_line (input : list string) (bs : list Block.t)
    (i : nat) (b : Block.t) (d : nat) :
  extractBlocks input = Return bs → bs !! i = Some b →
  Block.branch b = Some d →
  ∃ front line mnemonic target succ,
    Block.contents b = front ++ [line] ∧ isLabel line = false ∧
    getBranchMaybe line = Some (mnemonic, target) ∧
    bs !! d = Some succ ∧ Block.label succ = target.
Proof. apply branch_edge_origin. Qed.

Lemma branch_edge_from_branch_line_witness :
  ∃ front line mnemonic target succ,
    ["bnz l1"] = front ++ [line] ∧ isLabel line = false ∧
    getBranchMaybe line = Some (mnemonic, target) ∧
    [Block.mk ["bnz l1"] "b0" false (Some 1%nat) (Some 2%nat);
     Block.mk ["int 1"] "b1" true (Some 2%nat) None;
     Block.mk ["l1:"; "err"] "l1" false None None] !! 2%nat = Some succ ∧
    Block.label succ = target.
Proof.
  exact (branch_edge_from_branch_line ["bnz l1"; "int 1"; "l1:"; "err"] _ 0 _ 2
           scenario_C eq_refl eq_refl).
Defined.

(** X6.  A finished block that ends in a terminator line has no successor
    at all, and one that ends in the unconditional branch has no
    fallthrough successor. *)
Theorem no_fallthrough_after_closer (input : list string) (bs : list Block.t)
    (i : nat) (b : Block.t) (front : list string) (line : string) :
  extractBlocks input = Return bs → bs !! i = Some b →
  Block.contents b = front ++ [line] → isLabel line = false →
  (isBranch line = false → isTerminator line = true →
   Block.flow b = None ∧ Block.branch b = None) ∧
  (∀ target, getBranchMaybe line = Some ("b", target) → Block.flow b = None).
Proof.
  intros Hret Hb Hc Hl.
  destruct (finished_origin _ _ _ _ Hret Hb) as (a & block & Ha & _ & _ & _ & ->).
  rewrite finished_contents in Hc.
  pose proof (closing_line_flags _ _ _ _ _ Ha Hc Hl) as Hflags.
  rewrite finished_flow, finished_branch. split.
  - intros Hnb Ht. unfold isBranch in Hnb.
    destruct (getBranchMaybe line) as [[m t]|]; [done|].
    destruct (Hflags Ht) as [-> ->]. by destruct (decide _).
  - intros target Hg. rewrite Hg in Hflags. destruct Hflags as [_ ->].
    by destruct (decide _).
Qed.

Lemma no_fallthrough_after_closer_witness :
  Block.flow (Block.mk ["return"] "b0" false None None) = None ∧
  Block.branch (Block.mk ["return"] "b0" false None None) = None.
Proof.
  refine (proj1 (no_fallthrough_after_closer ["return"; "l0:"; "int 1"]
                   [Block.mk ["return"] "b0" false None None;
                    Block.mk ["l0:"; "int 1"] "l0" false None None]
                   0 _ [] "return" _ eq_refl eq_refl eq_refl)
                eq_refl eq_refl).
  vm_compute. reflexivity.
Defined.

(** X7.  A fallthrough successor has one of two origins: the block ends
    in a conditional branch line, or the successor opens with a label
    line.  A block that ends in a conditional branch line has the
    fallthrough successor unless it is the last block of the list. *)
Theorem fallthrough_origin (input : list string) (bs : list Block.t)
    (i : nat) (b : Block.t) :
  extractBlocks input = Return bs → bs !! i = Some b →
  (∀ s, Block.flow b = Some s →
     (∃ front line mnemonic target,
        Block.contents b = front ++ [line] ∧ isLabel line = false ∧
        getBranchMaybe line = Some (mnemonic, target) ∧ mnemonic ≠ "b") ∨
     (∃ succ first rest,
        bs !! s = Some succ ∧ Block.contents succ = first :: rest ∧
        isLabel first = true)) ∧
  (∀ front line mnemonic target,
     Block.contents b = front ++ [line] → isLabel line = false →
     getBranchMaybe line = Some (mnemonic, target) → mnemonic ≠ "b" →
     S i < length bs → Block.flow b = Some (S i)).
Proof.
  intros Hret Hb.
  destruct (finished_origin _ _ _ _ Hret Hb) as (a & block & Ha & Hne & Hi & Hs & ->).
  pose proof (extractBlocks_length _ _ Hret) as Hlen.
  rewrite finished_flow, finished_contents. split.
  - intros s Hflow.
    destruct (decide (S i < _)) as [Hlt|]; [|done].
    destruct (ConstructingBlock.flow block) eqn:Hfl; [|done].
    injection Hflow as <-.
    destruct (ConstructingBlock.branch block) as [target|] eqn:Hbr.
    + left. destruct (branch_field_origin _ _ _ _ Ha Hbr)
        as (front & line & m & Hbody & Hl & Hg & Hf).
      exists front, line, m, target. split; [done|]. split; [done|].
      split; [done|]. intros ->. rewrite Hfl in Hf. done.
    + right.
      destruct (build_structured input) as (_ & _ & _ & Hchain & _).
      destruct (block_shape _ _ _ Ha) as [[_ Hnext] | (_ & [Hopen _] & _)];
        [|congruence].
      destruct (lookup_lt_is_Some_2 _ _ Hnext) as [next Hn].
      pose proof (chained_lookup _ _ _ _ Hchain Ha Hn) as Hf.
      unfold follows in Hf. rewrite Hbr, Hfl in Hf. destruct Hf as [[name Hname] _].
      pose proof (build_blockOK input) as Hok.
      pose proof (proj1 (Forall_lookup _ _) Hok _ _ Hn) as [Hlab _].
      destruct (Hlab name Hname) as [_ Hopens].
      pose proof (opensWith_nonEmpty _ _ Hopens) as Hne'.
      pose proof (survivors_next _ _ _ _ Ha Hne Hn Hne') as Hsn.
      rewrite <- Hi in Hsn.
      destruct Hopens as (_ & first & rest & Hbody & Hd).
      pose proof (extractBlocks_Return _ _ Hret) as [Hbs _].
      eexists _, first, rest. split; [|split].
      * rewrite Hbs at 1. by rewrite list_lookup_imap, Hsn.
      * by rewrite finished_contents.
      * unfold isLabel. apply declaredName_isLabel in Hd as [-> ->]. done.
  - intros front line m target Hbody Hl Hg Hm Hlast.
    pose proof (closing_line_flags _ _ _ _ _ Ha Hbody Hl) as Hflags.
    rewrite Hg in Hflags. destruct Hflags as [_ ->].
    rewrite decide_True by lia.
    destruct (String.eqb_spec m "b"); [done|reflexivity].
Qed.

Lemma fallthrough_origin_witness :
  Block.flow (Block.mk ["bnz l1"] "b0" false (Some 1%nat) (Some 2%nat)) =
    Some 1%nat.
Proof.
  refine (proj2 (fallthrough_origin ["bnz l1"; "int 1"; "l1:"; "err"] _ 0 _
                   scenario_C eq_refl)
                [] "bnz l1" "bnz" "l1" eq_refl eq_refl eq_refl _ _).
  - discriminate.
  - simpl. lia.
Defined.

(** X8.  The first finished block and every finished block that opens
    with a label line have [dead = false].  A block that follows a block
    ending in a terminator line, and does not itself open with a label
    line, has [dead = true]. *)
Theorem dead_flags (input : list string) (bs : list Block.t) :
  extractBlocks input = Return bs →
  (∀ b, bs !! 0%nat = Some b → Block.dead b = false) ∧
  (∀ i b first rest,
     bs !! i = Some b → Block.contents b = first :: rest →
     isLabel first = true → Block.dead b = false) ∧
  (∀ i b b' front line first rest,
     bs !! i = Some b → bs !! S i = Some b' →
     Block.contents b = front ++ [line] → isLabel line = false →
     isBranch line = false → isTerminator line = true →
     Block.contents b' = first :: rest → isLabel first = false →
     Block.dead b' = true).
Proof.
  intros Hret.
  destruct (build_structured input) as (_ & _ & _ & Hchain & entry & He & Hel & Hed).
  assert (Hlabelled : ∀ i b first rest,
     bs !! i = Some b → Block.contents b = first :: rest →
     isLabel first = true → Block.dead b = false).
  { intros i b first rest Hb Hc Hl.
    destruct (finished_origin _ _ _ _ Hret Hb) as (a & block & Ha & _ & _ & _ & ->).
    rewrite finished_contents in Hc. rewrite finished_dead.
    destruct (block_lines _ _ _ Ha) as (_ & _ & Hhead).
    destruct (ConstructingBlock.label block) as [name|] eqn:Hlab.
    - apply (labelled_not_dead input a); [done|]. by rewrite Hlab.
    - apply Hhead in Hc. apply isLabel_declaredName in Hc. congruence. }
  split; [|split; [done|]].
  - intros b Hb.
    destruct (finished_origin _ _ _ _ Hret Hb) as (a & block & Ha & Hne & Hi & _ & ->).
    rewrite finished_dead. destruct a as [|a]; [congruence|].
    destruct (lookup_lt_is_Some_2 (allBlocks (build input)) a) as [prev Hprev].
    { apply lookup_lt_Some in Ha. lia. }
    rewrite (survivors_take_S _ _ _ Hprev), length_app in Hi.
    destruct (decide (ConstructingBlock.nonEmpty prev)) as [|Hempty];
      [simpl in Hi; lia|].
    destruct (empty_block_followed_by_label _ _ _ _ Hprev Hempty Ha) as [Hlab _].
    by apply (labelled_not_dead input (S a)).
  - intros i b b' front line first rest Hb Hb' Hc Hl Hnb Ht Hc' Hl'.
    destruct (finished_origin _ _ _ _ Hret Hb) as (a & block & Ha & Hne & Hi & _ & ->).
    destruct (extractBlocks_lookup _ _ _ _ Hret Hb') as (block' & Hs' & ->).
    rewrite finished_contents in Hc, Hc'. rewrite finished_dead.
    pose proof (closing_line_flags _ _ _ _ _ Ha Hc Hl) as Hflags.
    unfold isBranch in Hnb.
    destruct (getBranchMaybe line) as [[m t]|]; [done|].
    destruct (Hflags Ht) as [Hfl Hbr].
    destruct (block_shape _ _ _ Ha) as [[_ Hnext] | (_ & _ & Hlen)].
    2:{ apply lookup_lt_Some in Hs'.
        pose proof (f_equal survivors
                      (take_ge (allBlocks (build input)) (S a) ltac:(lia))) as Htake.
        rewrite (survivors_take_S _ _ _ Ha), decide_True in Htake by done.
        rewrite <- Htake, length_app in Hs'. simpl in Hs'. lia. }
    destruct (lookup_lt_is_Some_2 _ _ Hnext) as [next Hn].
    pose proof (chained_lookup _ _ _ _ Hchain Ha Hn) as Hf.
    unfold follows in Hf. rewrite Hbr, Hfl in Hf. destruct Hf as [Hnl Hnd].
    destruct (decide (ConstructingBlock.nonEmpty next)) as [Hne'|Hempty].
    + pose proof (survivors_next _ _ _ _ Ha Hne Hn Hne') as Hsn.
      rewrite <- Hi in Hsn. congruence.
    + exfalso.
      assert (Hafter : S (S a) < length (allBlocks (build input))).
      { destruct (decide (S (S a) < length (allBlocks (build input)))); [done|].
        apply lookup_lt_Some in Hs'.
        pose proof (f_equal survivors
                      (take_ge (allBlocks (build input)) (S (S a)) ltac:(lia)))
          as Htake.
        rewrite (survivors_take_S _ _ _ Hn), decide_False in Htake by done.
        rewrite (survivors_take_S _ _ _ Ha), decide_True in Htake by done.
        rewrite <- Htake, !length_app in Hs'. simpl in Hs'. lia. }
      destruct (lookup_lt_is_Some_2 _ _ Hafter) as [third Hthird].
      destruct (empty_block_followed_by_label _ _ _ _ Hn Hempty Hthird)
        as [[name Hname] Hne3].
      destruct (realBlock_survivor (allBlocks (build input)) (S (S a))
                  (length (survivors (take (S (S a)) (allBlocks (build input))))))
        as (x & Hx & Hsx).
      { apply realBlock_Some. by exists third. }
      assert (x = third) as -> by congruence.
      rewrite (survivors_take_S _ _ _ Hn), decide_False in Hsx by done.
      rewrite (survivors_take_S _ _ _ Ha), decide_True in Hsx by done.
      rewrite !length_app in Hsx. simpl in Hsx.
      rewrite Nat.add_0_r, Nat.add_1_r, <- Hi in Hsx.
      assert (block' = third) as -> by congruence.
      destruct (block_lines _ _ _ Hthird) as (_ & _ & Hhead).
      rewrite Hname in Hhead. destruct Hhead as (f & r & Hbody & Hd).
      rewrite Hbody in Hc'. injection Hc' as -> ->.
      apply isLabel_declaredName in Hl'. congruence.
Qed.

Lemma dead_flags_witness :
  Block.dead (Block.mk ["int 1"] "b1" true None None) = true.
Proof.
  refine (proj2 (proj2 (dead_flags ["return"; "int 1"]
                          [Block.mk ["return"] "b0" false None None;
                           Block.mk ["int 1"] "b1" true None None] _))
            0 _ _ [] "return" "int 1" [] eq_refl eq_refl eq_refl
            eq_refl eq_refl eq_refl eq_refl eq_refl).
  vm_compute. reflexivity.
Defined.

(** X9.  Every successor reference of a finished block points inside the
    returned list. *)
Theorem successors_in_range (input : list string) (bs : list Block.t)
    (i : nat) (b : Block.t) :
  extractBlocks input = Return bs → bs !! i = Some b →
  (∀ s, Block.flow b = Some s → s < length bs) ∧
  (∀ d, Block.branch b = Some d → d < length bs).
Proof.
  intros Hret Hb.
  destruct (extractBlocks_lookup _ _ _ _ Hret Hb) as (block & Hs & ->).
  rewrite (extractBlocks_length _ _ Hret), finished_flow, finished_branch.
  split.
  - intros s Hflow. destruct (decide (S i < _)); [|done].
    destruct (ConstructingBlock.flow block); [|done]. injection Hflow as <-. done.
  - intros d Hbr. destruct (decide (S i < _)); [|done].
    destruct (ConstructingBlock.branch block) as [t|]; [|done].
    destruct (JS.truthy t); [|done].
    destruct (resolve_Some _ _ _ Hbr) as (a & opener & _ & _ & _ & _ & Hd).
    by apply lookup_lt_Some in Hd.
Qed.

Lemma successors_in_range_witness :
  2 < length [Block.mk ["bnz l1"] "b0" false (Some 1%nat) (Some 2%nat);
              Block.mk ["int 1"] "b1" true (Some 2%nat) None;
              Block.mk ["l1:"; "err"] "l1" false None None].
Proof.
  exact (proj2 (successors_in_range ["bnz l1"; "int 1"; "l1:"; "err"] _ 0 _
                  scenario_C eq_refl) 2 eq_refl).
Defined.

(** *** Where in the stream a block lies *)

Lemma bodies_nonempty l b :
  b ∈ l → ConstructingBlock.nonEmpty b →
  concat (ConstructingBlock.body <$> l) ≠ [].
Proof.
  intros Hin Hne. induction Hin as [b l|b x l Hin IH]; rewrite fmap_cons;
    cbn [concat].
  - unfold ConstructingBlock.nonEmpty in Hne.
    by destruct (ConstructingBlock.body b).
  - intros [_ Heq]%app_eq_nil. by apply IH.
Qed.

(** A surviving block that is not the last one lies in the stream before
    at least one more line. *)
Lemma block_position input j block :
  survivors (allBlocks (build input)) !! j = Some block →
  S j < length (survivors (allBlocks (build input))) →
  ∃ before after,
    input = before ++ ConstructingBlock.body block ++ after ∧ after ≠ [] ∧
    ∃ a, allBlocks (build input) !! a = Some block.
Proof.
  intros Hs Hlt.
  destruct (survivors_address _ _ _ Hs) as (a & Ha & Hne & Hj).
  pose proof (take_drop_middle _ _ _ Ha) as Hsplit.
  exists (concat (ConstructingBlock.body <$> take a (allBlocks (build input)))),
         (concat (ConstructingBlock.body <$> drop (S a) (allBlocks (build input)))).
  split; [|split; [|by exists a]].
  - rewrite <- (build_bodies input) at 1. rewrite <- Hsplit at 1.
    rewrite fmap_app, concat_app, fmap_cons. reflexivity.
  - destruct (lookup_lt_is_Some_2 _ _ Hlt) as [next Hnext].
    assert (Hsurv : survivors (allBlocks (build input)) =
                    survivors (take a (allBlocks (build input))) ++
                    block :: survivors (drop (S a) (allBlocks (build input)))).
    { rewrite <- Hsplit at 1. unfold survivors.
      by rewrite filter_app, filter_cons_True. }
    rewrite Hsurv in Hnext. rewrite lookup_app_r in Hnext by lia.
    replace (S j - length (survivors (take a (allBlocks (build input)))))
      with 1 in Hnext by lia.
    simpl in Hnext. apply list_elem_of_lookup_2 in Hnext.
    unfold survivors in Hnext. apply list_elem_of_filter in Hnext as [Hne' Hin].
    by apply (bodies_nonempty _ next).
Qed.

(** X10.  [extractBlocks] throws exactly when the stream holds a branch
    line, other than its last line, whose target is not empty and is
    declared nowhere; the message names such a target. *)
Theorem throws_iff_dangling_branch (input : list string) :
  (∀ message,
     extractBlocks input = Throw message →
     ∃ pre line post mnemonic target,
       input = pre ++ line :: post ∧ post ≠ [] ∧ isLabel line = false ∧
       getBranchMaybe line = Some (mnemonic, target) ∧
       target ≠ "" ∧ (target ∉ declared input) ∧
       message = notFound target) ∧
  ((∃ pre line post mnemonic target,
      input = pre ++ line :: post ∧ post ≠ [] ∧ isLabel line = false ∧
      getBranchMaybe line = Some (mnemonic, target) ∧
      target ≠ "" ∧ (target ∉ declared input)) →
   ∃ message, extractBlocks input = Throw message).
Proof.
  split.
  - intros message Hthrow.
    destruct (extractBlocks_Throw _ _ Hthrow)
      as (j & block & target & -> & Hlt & Hs & Hu & _).
    apply unresolved_Some in Hu as (Hbr & Hne & Hund).
    destruct (block_position _ _ _ Hs Hlt) as (before & after & Hin & Hafter & a & Ha).
    destruct (branch_field_origin _ _ _ _ Ha Hbr)
      as (front & line & m & Hbody & Hl & Hg & _).
    exists (before ++ front), line, after, m, target.
    split; [|done]. rewrite Hin, Hbody, <- !app_assoc. reflexivity.
  - intros (pre & line & post & m & t & -> & Hpost & Hl & Hg & Hne & Hund).
    destruct (undeclared_target_throws_stream pre line post m t Hl Hg Hpost Hne Hund)
      as (missing & _ & Hthrow).
    by eexists.
Qed.

Lemma throws_iff_dangling_branch_witness :
  ∃ pre line post mnemonic target,
    ["b missing"; "return"] = pre ++ line :: post ∧ post ≠ [] ∧
    isLabel line = false ∧
    getBranchMaybe line = Some (mnemonic, target) ∧
    target ≠ "" ∧ (target ∉ declared ["b missing"; "return"]) ∧
    "branch target not found: 'missing'" = notFound target.
Proof.
  exact (proj1 (throws_iff_dangling_branch ["b missing"; "return"]) _ scenario_D).
Defined.

Example vizBlocks_scenario_B :
  render ["b l0"; "l0:"; "return"] =
  Return ("digraph program {" +:+ JS.newline +:+
          "b0 [shape=box label=" +:+ String JS.dquote "<b0>\nb l0" +:+
          String JS.dquote "]" +:+ JS.newline +:+
          "l0 [shape=box label=" +:+ String JS.dquote "<l0>\nl0:\nreturn" +:+
          String JS.dquote "]" +:+ JS.newline +:+ JS.newline +:+
          "b0 -> l0" +:+ JS.newline +:+ JS.newline +:+ "}").
Proof. vm_compute. reflexivity. Qed.

(** ** The classifiers, characterised *)

#[local] Arguments Ascii.eqb : simpl never.

Lemma slice_prefix s n :
  (n ≤ String.length s)%nat → JS.slice s 0 (Z.of_nat n) = String.substring 0 n s.
Proof.
  intros Hn. unfold JS.slice.
  replace (0 <? 0)%Z with false by reflexivity.
  assert ((Z.of_nat n <? 0)%Z = false) as -> by (apply Z.ltb_ge; lia).
  rewrite Z.min_l by lia. rewrite Z.min_l by lia.
  rewrite Z.sub_0_r, Z.max_l by lia.
  rewrite Nat2Z.id. reflexivity.
Qed.

Lemma append_String a s t : String a s +:+ t = String a (s +:+ t).
Proof. reflexivity. Qed.

Lemma append_Empty t : "" +:+ t = t.
Proof. reflexivity. Qed.

Lemma substring_prefix name rest :
  String.substring 0 (String.length name) (name +:+ rest) = name.
Proof.
  induction name as [|a name IH].
  - rewrite append_Empty. by destruct rest.
  - rewrite append_String. simpl. by rewrite IH.
Qed.

Lemma ascii_eqb_false a b : a ≠ b → Ascii.eqb a b = false.
Proof. intros H. destruct (Ascii.eqb_spec a b); done. Qed.

(** The scan that [getLabelMaybe] performs, seen from the result. *)
Lemma label_scan line :
  JS.indexOf ":"%char (JS.split_head " "%char line) = (-1)%Z ∨
  ∃ n rest,
    JS.indexOf ":"%char (JS.split_head " "%char line) = Z.of_nat n ∧
    (n ≤ String.length line)%nat ∧
    line = String.substring 0 n line +:+ ":" +:+ rest ∧
    JS.anyChar (Ascii.eqb " "%char) (String.substring 0 n line) = false ∧
    JS.anyChar (Ascii.eqb ":"%char) (String.substring 0 n line) = false.
Proof.
  induction line as [|a r IH]; [by left|]. simpl.
  destruct (Ascii.eqb_spec a " "%char) as [->|Hsp]; [by left|]. simpl.
  destruct (Ascii.eqb_spec a ":"%char) as [->|Hco].
  - right. exists 0, r. simpl. split; [done|]. split; [lia|]. done.
  - destruct IH as [-> | (n & rest & -> & Hn & Hr & Hs & Hc)]; [by left|].
    right. exists (S n), rest.
    assert ((Z.of_nat n <? 0)%Z = false) as -> by (apply Z.ltb_ge; lia).
    split; [lia|]. split; [simpl; lia|]. simpl.
    rewrite Hs, Hc, append_String, <- Hr.
    rewrite (ascii_eqb_false " "%char a), (ascii_eqb_false ":"%char a) by done.
    done.
Qed.

Lemma label_scan_found name rest :
  JS.anyChar (Ascii.eqb " "%char) name = false →
  JS.anyChar (Ascii.eqb ":"%char) name = false →
  JS.indexOf ":"%char (JS.split_head " "%char (name +:+ ":" +:+ rest)) =
    Z.of_nat (String.length name).
Proof.
  induction name as [|a name IH]; intros Hs Hc; [done|].
  simpl in Hs, Hc. apply orb_false_iff in Hs as [Hs1 Hs2].
  apply orb_false_iff in Hc as [Hc1 Hc2].
  rewrite append_String. cbn [JS.split_head String.length].
  rewrite Ascii.eqb_sym, Hs1. cbn [JS.indexOf].
  rewrite Ascii.eqb_sym, Hc1. rewrite (IH Hs2 Hc2).
  assert ((Z.of_nat (String.length name) <? 0)%Z = false) as ->
    by (apply Z.ltb_ge; lia).
  lia.
Qed.

(** X11.  [getLabelMaybe] answers [name] exactly on the lines that consist
    of [name], a colon and anything after it, where [name] holds neither a
    space nor a colon: the name is what precedes the first colon of the
    first space-delimited token, and the text after that colon is
    ignored. *)
Theorem getLabelMaybe_characterised (line name : string) :
  getLabelMaybe line = Some name ↔
  ∃ rest, line = name +:+ ":" +:+ rest ∧
          JS.anyChar (Ascii.eqb " "%char) name = false ∧
          JS.anyChar (Ascii.eqb ":"%char) name = false.
Proof.
  unfold getLabelMaybe. split.
  - destruct (label_scan line) as [-> | (n & rest & -> & Hn & Hr & Hs & Hc)];
      [done|].
    assert ((Z.of_nat n <? 0)%Z = false) as -> by (apply Z.ltb_ge; lia).
    rewrite slice_prefix by done. intros [= <-]. by exists rest.
  - intros (rest & -> & Hs & Hc). rewrite (label_scan_found _ _ Hs Hc).
    assert ((Z.of_nat (String.length name) <? 0)%Z = false) as ->
      by (apply Z.ltb_ge; lia).
    rewrite slice_prefix.
    + by rewrite substring_prefix.
    + clear. induction name; simpl; lia.
Qed.





(** ** [getLabelFor] *)

Lemma findIndex_first {A} (p : A → bool) (l : list A) :
  (JS.findIndex p l = (-1)%Z ∧ Forall (λ x, p x = false) l) ∨
  ∃ n x, JS.findIndex p l = Z.of_nat n ∧ l !! n = Some x ∧ p x = true ∧
         ∀ m y, m < n → l !! m = Some y → p y = false.
Proof.
  induction l as [|x l IH]; simpl.
  - left. split; [done|constructor].
  - destruct (p x) eqn:Hx.
    + right. exists 0, x. split; [done|]. split; [done|]. split; [done|].
      intros; lia.
    + destruct IH as [[-> Hall] | (n & y & -> & Hn & Hy & Hmin)].
      * left. split; [done|]. by constructor.
      * right. exists (S n), y.
        assert ((Z.of_nat n <? 0)%Z = false) as -> by (apply Z.ltb_ge; lia).
        split; [lia|]. split; [done|]. split; [done|].
        intros [|m] z Hm Hz; simpl in Hz; [congruence|].
        apply (Hmin m); [lia|done].
Qed.

(** X13.  [getLabelFor] returns the index of the first line that starts
    with the text of [label], in range, every earlier line not starting
    with it; it throws, naming the label, exactly when no line starts with
    that text. *)
Theorem getLabelFor_first_match (input : list string) (label : string) :
  match getLabelFor input label with
  | Return idx =>
      ∃ n line,
        idx = Z.of_nat n ∧ input !! n = Some line ∧
        JS.startsWith label line = true ∧
        ∀ m line', m < n → input !! m = Some line' →
                   JS.startsWith label line' = false
  | Throw message =>
      message = "label not found: '" +:+ label +:+ "'" ∧
      Forall (λ line, JS.startsWith label line = false) input
  end.
Proof.
  unfold getLabelFor.
  destruct (findIndex_first (λ line, JS.startsWith label line) input)
    as [[-> Hall] | (n & line & -> & Hn & Hline & Hmin)].
  - done.
  - assert ((Z.of_nat n =? -1)%Z = false) as -> by (apply Z.eqb_neq; lia).
    by exists n, line.
Qed.

(** The match is by prefix of the line, not by declared name. *)
Example getLabelFor_prefix : getLabelFor ["int 1"; "l10:"; "l1:"] "l1" = Return 1%Z.
Proof. reflexivity. Qed.

(** ** The renderer *)









